(** * KerrP2P: the image-finding utilities of src/Utils.h

    A shallow embedding of [RootFunctor], [sgn], [wrap_phi] and the static
    members of [ForwardRayTracingUtils] ([calc_ray_batch], [find_root_period],
    [find_root], [sweep_rc_d_high], [sweep_rc_d]), together with the
    properties the specification states about them.

    The C++ code is a template over the numeric type [Real]; the embedding
    is generic over a numeric trait [Numeric] in the same way, and the
    instance [Float64] is IEEE binary64, the type [double] the bindings
    instantiate the templates with.  Diagnostics printed with [fmt::println]
    are not part of the model. *)

From Stdlib Require Import ZArith Bool Lia String Permutation List.
From Stdlib Require Import Floats.PrimFloat Floats.FloatOps Floats.SpecFloat Uint63.
From stdpp Require Import base option list sorting.

(** ** The numeric trait *)

(** The operations Utils.h applies to values of the template parameter
    [Real].  The last four come from headers that are not under src/:
    [two_pi] is [boost::math::constants::two_pi<Real>()], [half] is
    [half<Real>()], [MY_FLOOR_convert] is [MY_FLOOR<Real>::convert] and
    [r_of_int] is the implicit conversion of an [int] to [Real]. *)
Class Numeric (Real : Type) := {
  r_add : Real → Real → Real;
  r_sub : Real → Real → Real;
  r_mul : Real → Real → Real;
  r_div : Real → Real → Real;
  r_lt : Real → Real → bool;
  r_le : Real → Real → bool;
  r_abs : Real → Real;
  r_sin : Real → Real;
  r_sqrt : Real → Real;
  r_isnan : Real → bool;
  quiet_NaN : Real;
  r_of_int : Z → Real;
  two_pi : Real;
  half : Real;
  MY_FLOOR_convert : Real → Z;
  r_isnan_quiet_NaN : r_isnan quiet_NaN = true
}.

Infix "⊕" := r_add (at level 50, left associativity).
Infix "⊖" := r_sub (at level 50, left associativity).
Infix "⊗" := r_mul (at level 40, left associativity).
Infix "⊘" := r_div (at level 40, left associativity).

(** [x > y] and [x >= y] are [y < x] and [y <= x]. *)
Definition r_gt {Real} `{Numeric Real} (x y : Real) : bool := r_lt y x.
Definition r_ge {Real} `{Numeric Real} (x y : Real) : bool := r_le y x.

(** ** binary64 *)

Module Float64.

Definition of_int (z : Z) : float :=
  if (z <? 0)%Z then PrimFloat.opp (PrimFloat.of_uint63 (Uint63.of_Z (- z)))
  else PrimFloat.of_uint63 (Uint63.of_Z z).

(** The integer part towards minus infinity of a finite value, read off
    the sign, mantissa and exponent; converting an infinity or a NaN to
    [int] is undefined in C++, the model answers 0 there. *)
Definition floor (x : float) : Z :=
  match Prim2SF x with
  | S754_finite s m e => Z.shiftl (if s then Z.neg m else Z.pos m) e
  | _ => 0%Z
  end.

(** libm is not part of the repository: the instance evaluates the
    Maclaurin polynomial of degree 13.  No theorem below depends on its
    accuracy; it only makes the closed examples computable. *)
Definition sin (x : float) : float :=
  let x2 := (x * x)%float in
  (x * (1 - x2 / 6 * (1 - x2 / 20 * (1 - x2 / 42 * (1 - x2 / 72 *
     (1 - x2 / 110 * (1 - x2 / 156)))))))%float.

Definition two_pi : float := 0x1.921fb54442d18p+2%float.

End Float64.

#[export] Instance Float64 : Numeric float := {|
  r_add := PrimFloat.add;
  r_sub := PrimFloat.sub;
  r_mul := PrimFloat.mul;
  r_div := PrimFloat.div;
  r_lt := PrimFloat.ltb;
  r_le := PrimFloat.leb;
  r_abs := PrimFloat.abs;
  r_sin := Float64.sin;
  r_sqrt := PrimFloat.sqrt;
  r_isnan := PrimFloat.is_nan;
  quiet_NaN := PrimFloat.nan;
  r_of_int := Float64.of_int;
  two_pi := Float64.two_pi;
  half := 0.5%float;
  MY_FLOOR_convert := Float64.floor;
  r_isnan_quiet_NaN := eq_refl
|}.

(** ** [sgn] and [wrap_phi] *)

Section Angles.
Context {Real : Type} `{!Numeric Real}.

(** [sgn]: [(T(0) < val) - (val < T(0))], an [int]. *)
Definition sgn (val : Real) : Z :=
  (Z.b2z (r_lt (r_of_int 0) val) - Z.b2z (r_lt val (r_of_int 0)))%Z.

(** [wrap_phi] updates its argument in place; the model returns the new
    value.  The comment in the source reads: move phi to [0, 2pi). *)
Definition wrap_phi (phi : Real) : Real :=
  if r_lt phi (r_of_int 0) || r_ge phi two_pi
  then phi ⊖ two_pi ⊗ r_of_int (MY_FLOOR_convert (phi ⊘ two_pi))
  else phi.

End Angles.

(** ** Data *)

(** [RayStatus]: the enumerators Pybind.cpp exports, and [ARGUMENT_ERROR],
    which Utils.h tests for. *)
Inductive RayStatus :=
  NORMAL | CONFINED | ETA_OUT_OF_RANGE | THETA_OUT_OF_RANGE | ARGUMENT_ERROR | UNKOWN_ERROR.

#[export] Instance RayStatus_eq_dec : EqDecision RayStatus.
Proof. solve_decision. Defined.

Inductive Sign := POSITIVE | NEGATIVE.

(** Modelled from the spec: [ForwardRayTracingParams<Real>] is declared in
    ForwardRayTracing.h, which is not under src/.  The fields are the ones
    Utils.h and Pybind.cpp name. *)
Module Params.
Record t {Real : Type} := mk {
  a : Real; r_s : Real; theta_s : Real; r_o : Real;
  nu_r : Sign; nu_theta : Sign;
  rc : Real; log_abs_d : Real; d_sign : Sign;
  lambda : Real; q : Real;
  print_args_error : bool
}.
Arguments t : clear implicits.
Arguments mk {Real}.

Definition set_rc {Real} (v : Real) (p : t Real) : t Real :=
  mk (a p) (r_s p) (theta_s p) (r_o p) (nu_r p) (nu_theta p)
     v (log_abs_d p) (d_sign p) (lambda p) (q p) (print_args_error p).

Definition set_log_abs_d {Real} (v : Real) (p : t Real) : t Real :=
  mk (a p) (r_s p) (theta_s p) (r_o p) (nu_r p) (nu_theta p)
     (rc p) v (d_sign p) (lambda p) (q p) (print_args_error p).

(** Two parameter blocks that differ at most in [lambda] and [q], the two
    fields [rc_d_to_lambda_q] computes. *)
Definition same_inputs {Real} (p p' : t Real) : Prop :=
  a p = a p' ∧ r_s p = r_s p' ∧ theta_s p = theta_s p' ∧ r_o p = r_o p' ∧
  nu_r p = nu_r p' ∧ nu_theta p = nu_theta p' ∧
  rc p = rc p' ∧ log_abs_d p = log_abs_d p' ∧ d_sign p = d_sign p' ∧
  print_args_error p = print_args_error p'.
End Params.

Definition ForwardRayTracingParams (Real : Type) : Type := Params.t Real.

(** Modelled from the spec: the members of [ForwardRayTracing<Real, Complex>]
    (ForwardRayTracing.h, not under src/) that Utils.h reads after
    [calc_ray]: the final angles, the action variables and the status. *)
Module Ray.
Record t {Real : Type} := mk {
  ray_status : RayStatus;
  theta_f : Real; phi_f : Real;
  lambda : Real; eta : Real
}.
Arguments t : clear implicits.
Arguments mk {Real}.
End Ray.

Definition ForwardRayTracing (Real : Type) : Type := Ray.t Real.

(** Modelled from the spec: [ForwardRayTracingResult<Real, Complex>]
    (ForwardRayTracing.h, not under src/), the solved point with its final
    angles and action variables.  Utils.h writes [rc], [log_abs_d] and
    [d_sign]. *)
Module Result.
Record t {Real : Type} := mk {
  rc : Real; log_abs_d : Real; d_sign : Sign;
  theta_f : Real; phi_f : Real;
  lambda : Real; eta : Real;
  ray_status : RayStatus
}.
Arguments t : clear implicits.
Arguments mk {Real}.

(** The three assignments closing [find_root_period]. *)
Definition set_root {Real} (x0 x1 : Real) (s : Sign) (r : t Real) : t Real :=
  mk x0 x1 s (theta_f r) (phi_f r) (lambda r) (eta r) (ray_status r).
End Result.

Definition ForwardRayTracingResult (Real : Type) : Type := Result.t Real.

Record FindRootResult {Real : Type} := {
  success : bool;
  fail_reason : string;
  root : option (ForwardRayTracingResult Real)
}.
Arguments FindRootResult : clear implicits.

(** [Eigen::Vector<Real, 2>] *)
Definition Vector (Real : Type) : Type := (Real * Real)%type.

(** [Eigen::Matrix<Real, Dynamic, Dynamic>], as its list of rows, and
    [Eigen::Matrix<Real, Dynamic, 2>]. *)
Definition Matrix (Real : Type) : Type := list (list Real).
Definition PointVector (Real : Type) : Type := list (Real * Real).

(** A matrix after [resize(rows, cols)]. *)
Definition has_size {Real : Type} (m : Matrix Real) (rows cols : nat) : Prop :=
  length m = rows ∧ Forall (λ row, length row = cols) m.

(** [bg::model::point<int, 2, bg::cs::cartesian>]: a (row, column) pair. *)
Definition Point : Type := (nat * nat)%type.

Module Sweep.
Record t {Real : Type} := mk {
  theta : Matrix Real;
  phi : Matrix Real;
  lambda : Matrix Real;
  eta : Matrix Real;
  delta_theta : Matrix Real;
  delta_phi : Matrix Real;
  theta_roots : PointVector Real;
  phi_roots : PointVector Real;
  theta_roots_closest : PointVector Real;
  results : list (ForwardRayTracingResult Real)
}.
Arguments t : clear implicits.
Arguments mk {Real}.

Definition set_theta_roots {Real} (v : PointVector Real) (s : t Real) : t Real :=
  mk (theta s) (phi s) (lambda s) (eta s) (delta_theta s) (delta_phi s)
     v (phi_roots s) (theta_roots_closest s) (results s).

Definition set_phi_roots {Real} (v : PointVector Real) (s : t Real) : t Real :=
  mk (theta s) (phi s) (lambda s) (eta s) (delta_theta s) (delta_phi s)
     (theta_roots s) v (theta_roots_closest s) (results s).

Definition set_theta_roots_closest {Real} (v : PointVector Real) (s : t Real) : t Real :=
  mk (theta s) (phi s) (lambda s) (eta s) (delta_theta s) (delta_phi s)
     (theta_roots s) (phi_roots s) v (results s).

Definition set_results {Real} (v : list (ForwardRayTracingResult Real)) (s : t Real) : t Real :=
  mk (theta s) (phi s) (lambda s) (eta s) (delta_theta s) (delta_phi s)
     (theta_roots s) (phi_roots s) (theta_roots_closest s) v.
End Sweep.

Definition SweepResult (Real : Type) : Type := Sweep.t Real.

(** [std::numeric_limits<int>::max()] *)
Definition INT_MAX : Z := 2147483647%Z.

(** What a call of [RootFunctor::operator()] mutates: the parameter block
    the functor holds by reference and the pooled context behind its
    [ray_tracing] pointer. *)
Record FunctorState {Real : Type} := {
  params : ForwardRayTracingParams Real;
  ray_tracing : ForwardRayTracing Real
}.
Arguments FunctorState : clear implicits.

(** ** The collaborators *)

(** The Oracle and what comes with it, all declared in ForwardRayTracing.h,
    outside src/: the impact-parameter transform
    [ForwardRayTracingParams::rc_d_to_lambda_q], [ForwardRayTracing::calc_ray]
    (the state it leaves a pooled context in is a function of the
    parameters), [to_result], a pooled context as [get_from_cache] hands it
    out, a value-initialised [ForwardRayTracingResult], [ray_status_to_str]
    and the text [fmt] prints for a [Real]. *)
Class Oracle (Real : Type) := {
  rc_d_to_lambda_q : ForwardRayTracingParams Real → ForwardRayTracingParams Real;
  calc_ray : ForwardRayTracingParams Real → ForwardRayTracing Real;
  to_result : ForwardRayTracing Real → ForwardRayTracingResult Real;
  get_from_cache : ForwardRayTracing Real;
  result_default : ForwardRayTracingResult Real;
  ray_status_to_str : RayStatus → string;
  fmt_real : Real → string
}.

(** The external solver [BroydenDF::broyden_df] (Broyden.h, outside src/):
    it is handed the functor, updates [x] in place and leaves the functor's
    state as its last call left it. *)
Class RootSolver (Real : Type) := {
  broyden_df :
    (Vector Real → FunctorState Real → Vector Real * FunctorState Real) →
    Vector Real → FunctorState Real → Vector Real * FunctorState Real
}.

(** [i] ranges over [r.begin() .. r.end()) in a [blocked_range] body. *)
Definition range_indices (r : nat * nat) : list nat := seq (fst r) (snd r - fst r).

(** What the libraries leave open.  [blocked_ranges b e] is the way
    [parallel_for] cuts [blocked_range(b, e)] into the subranges it hands to
    the body, in the order their effects land; [arrival l] is the order in
    which items appended concurrently (to a [concurrent_vector], or to a
    vector under a mutex) end up, [l] listing them in loop order;
    [rtree_nearest pts p] is the answer of [rtree.query(bgi::nearest(p, 1))]
    over the points [pts]; [std_sort] is [std::sort] with a comparator. *)
Class Runtime := {
  blocked_ranges : nat → nat → list (nat * nat);
  blocked_ranges_cover b e :
    concat (map range_indices (blocked_ranges b e)) ≡ₚ seq b (e - b);
  arrival : ∀ {A : Type}, list A → list A;
  arrival_perm {A : Type} (l : list A) : arrival l ≡ₚ l;
  rtree_nearest : list Point → Point → Point;
  std_sort : (nat → nat → bool) → list nat → list nat;
  std_sort_perm cmp l : std_sort cmp l ≡ₚ l
}.

(** ** [RootFunctor] and [ForwardRayTracingUtils] *)

Section Utils.
Context {Real : Type} `{!Numeric Real, !Oracle Real, !RootSolver Real, !Runtime}.

(** The const members of [RootFunctor]. *)
Record RootFunctor := {
  theta_o : Real;
  phi_o : Real;
  period : Z;
  fixed_period : bool
}.

(** The two constructors.  They also clear [calc_t_f] on the pooled
    context; the flag is not part of the model. *)
Definition RootFunctor_any (theta_o_ phi_o_ : Real) : RootFunctor :=
  {| theta_o := theta_o_; phi_o := phi_o_; period := INT_MAX; fixed_period := false |}.

Definition RootFunctor_period (period_ : Z) (theta_o_ phi_o_ : Real) : RootFunctor :=
  {| theta_o := theta_o_; phi_o := phi_o_; period := period_; fixed_period := true |}.

(** A parameter block after [rc] and [log_abs_d] are assigned and
    [rc_d_to_lambda_q()] is called on it. *)
Definition at_point (x : Vector Real) (p : ForwardRayTracingParams Real)
  : ForwardRayTracingParams Real :=
  rc_d_to_lambda_q (Params.set_log_abs_d (snd x) (Params.set_rc (fst x) p)).

(** [RootFunctor::operator()] *)
Definition RootFunctor_call (f : RootFunctor) (x : Vector Real) (s : FunctorState Real)
  : Vector Real * FunctorState Real :=
  let p := at_point x (params s) in
  let rt := calc_ray p in
  let s' := {| params := p; ray_tracing := rt |} in
  if decide (Ray.ray_status rt ≠ NORMAL) then ((quiet_NaN, quiet_NaN), s')
  else
    let residual0 := Ray.theta_f rt ⊖ theta_o f in
    let residual1 :=
      if fixed_period f
      then Ray.phi_f rt ⊖ phi_o f ⊖ r_of_int (period f) ⊗ two_pi
      else r_sin ((Ray.phi_f rt ⊖ phi_o f) ⊗ half) in
    ((residual0, residual1), s').

(** [ForwardRayTracingUtils::calc_ray] *)
Definition Utils_calc_ray (params_ : ForwardRayTracingParams Real)
  : ForwardRayTracingResult Real :=
  to_result (calc_ray params_).

(** The body [parallel_for] runs on one subrange in [calc_ray_batch]; an
    index outside [params_list] is never handed to it. *)
Definition calc_ray_batch_body (params_list : list (ForwardRayTracingParams Real))
    (results : list (ForwardRayTracingResult Real)) (r : nat * nat)
  : list (ForwardRayTracingResult Real) :=
  foldl (λ res i,
           match params_list !! i with
           | Some p => <[i := to_result (calc_ray p)]> res
           | None => res
           end)
        results (range_indices r).

(** [calc_ray_batch] *)
Definition calc_ray_batch (params_list : list (ForwardRayTracingParams Real))
  : list (ForwardRayTracingResult Real) :=
  let results := replicate (length params_list) result_default in
  foldl (calc_ray_batch_body params_list) results
        (blocked_ranges 0 (length params_list)).

(** [Eigen]'s [norm()] of a 2-vector. *)
Definition norm (v : Vector Real) : Real :=
  r_sqrt (fst v ⊗ fst v ⊕ snd v ⊗ snd v).

(** The conditional that builds [root_functor] in [find_root_period]. *)
Definition make_root_functor (period_ : Z) (theta_o_ phi_o_ : Real) : RootFunctor :=
  if decide (period_ = INT_MAX) then RootFunctor_any theta_o_ phi_o_
  else RootFunctor_period period_ theta_o_ phi_o_.

(** [find_root_period] up to [auto residual = root_functor(x)]: the
    solver's final point, the residual re-evaluated there and the state that
    evaluation leaves. *)
Definition find_root_period_solve
    (params_ : ForwardRayTracingParams Real) (period_ : Z) (theta_o_ phi_o_ : Real)
  : Vector Real * Vector Real * FunctorState Real :=
  let phi_o_ := wrap_phi phi_o_ in
  let local_params := params_ in
  let x := (Params.rc local_params, Params.log_abs_d local_params) in
  let root_functor := make_root_functor period_ theta_o_ phi_o_ in
  let xs := broyden_df (RootFunctor_call root_functor) x
              {| params := local_params; ray_tracing := get_from_cache |} in
  let rs := RootFunctor_call root_functor (fst xs) (snd xs) in
  (fst xs, fst rs, snd rs).

(** [find_root_period] *)
Definition find_root_period
    (params_ : ForwardRayTracingParams Real) (period_ : Z) (theta_o_ phi_o_ tol : Real)
  : FindRootResult Real :=
  let '(x, residual, s) := find_root_period_solve params_ period_ theta_o_ phi_o_ in
  if decide (Ray.ray_status (ray_tracing s) ≠ NORMAL) then
    {| success := false;
       fail_reason := "ray status: " ++ ray_status_to_str (Ray.ray_status (ray_tracing s));
       root := None |}
  else if r_gt (norm residual) tol then
    {| success := false;
       fail_reason := "residual > threshold: " ++ fmt_real (norm residual)
                        ++ " > " ++ fmt_real tol;
       root := None |}
  else
    {| success := true;
       fail_reason := "";
       root := Some (Result.set_root (fst x) (snd x) (Params.d_sign (params s))
                                     (to_result (ray_tracing s))) |}.

(** [find_root] *)
Definition find_root
    (params_ : ForwardRayTracingParams Real) (theta_o_ phi_o_ tol : Real)
  : FindRootResult Real :=
  let phi_o_ := wrap_phi phi_o_ in
  find_root_period params_ INT_MAX theta_o_ phi_o_ tol.

(** *** [sweep_rc_d]: sampling *)

(** What the sampling loop stores for one grid point. *)
Record GridSample := {
  s_theta : Real; s_phi : Real;
  s_delta_theta : Real; s_delta_phi : Real;
  s_lambda : Real; s_eta : Real
}.

(** What the sampling loop stores once [calc_ray] has run. *)
Definition sample_of_ray (rt : ForwardRayTracing Real) (theta_o_ phi_o_ : Real)
  : GridSample :=
  if decide (Ray.ray_status rt = NORMAL) then
    let th := Ray.theta_f rt in
    let ph := Ray.phi_f rt in
    {| s_theta := th; s_phi := ph;
       s_delta_theta := th ⊖ theta_o_;
       s_delta_phi := r_sin ((ph ⊖ phi_o_) ⊗ half);
       s_lambda := Ray.lambda rt; s_eta := Ray.eta rt |}
  else
    {| s_theta := quiet_NaN; s_phi := quiet_NaN;
       s_delta_theta := quiet_NaN; s_delta_phi := quiet_NaN;
       s_lambda := quiet_NaN; s_eta := quiet_NaN |}.

(** The body of the sampling loop at column value [rc] and row value [lgd],
    run on a fresh copy of [params]: the task of a subrange of one cell. *)
Definition sample_cell (params_ : ForwardRayTracingParams Real) (theta_o_ phi_o_ : Real)
    (rc lgd : Real) : GridSample :=
  sample_of_ray (calc_ray (at_point (rc, lgd) params_)) theta_o_ phi_o_.

(** The task of a larger subrange: one [local_params], assigned and
    transformed anew at each of its cells, given as their [(rc, lgd)]. *)
Fixpoint sample_run (local_params : ForwardRayTracingParams Real) (theta_o_ phi_o_ : Real)
    (cells : list (Real * Real)) : list GridSample :=
  match cells with
  | [] => []
  | cell :: cells' =>
      let local_params := at_point cell local_params in
      sample_of_ray (calc_ray local_params) theta_o_ phi_o_
        :: sample_run local_params theta_o_ phi_o_ cells'
  end.

(** One of the six matrices: [lgd_size] rows of [rc_size] entries. *)
Definition sample_matrix (field : GridSample → Real)
    (params_ : ForwardRayTracingParams Real) (theta_o_ phi_o_ : Real)
    (rc_list lgd_list : list Real) : Matrix Real :=
  map (λ lgd, map (λ rc, field (sample_cell params_ theta_o_ phi_o_ rc lgd)) rc_list)
      lgd_list.

(** [sweep_result] as the sampling loop leaves it. *)
Definition sampled (params_ : ForwardRayTracingParams Real) (theta_o_ phi_o_ : Real)
    (rc_list lgd_list : list Real) : SweepResult Real :=
  let m field := sample_matrix field params_ theta_o_ phi_o_ rc_list lgd_list in
  Sweep.mk (m s_theta) (m s_phi) (m s_lambda) (m s_eta) (m s_delta_theta) (m s_delta_phi)
           [] [] [] [].

(** *** [sweep_rc_d]: root isolation *)

(** [m(i, j)]; the loops below stay inside the matrix. *)
Definition coeff (m : Matrix Real) (i j : nat) : Real :=
  default quiet_NaN (m !! i ≫= λ row, row !! j).

(** [v[i]] on a [std::vector<Real>]. *)
Definition vec_at (v : list Real) (i : nat) : Real := default quiet_NaN (v !! i).

(** The first test in the body of the isolation loop. *)
Definition is_theta_root (delta_theta : Matrix Real) (ij : Point) : bool :=
  let '(i, j) := ij in
  let d_row := (sgn (coeff delta_theta i j) * sgn (coeff delta_theta i (j - 1)))%Z in
  let d_col := (sgn (coeff delta_theta i j) * sgn (coeff delta_theta (i - 1) j))%Z in
  negb (r_isnan (coeff delta_theta i j)) && negb (r_isnan (coeff delta_theta i (j - 1))) &&
  negb (r_isnan (coeff delta_theta (i - 1) j)) &&
  ((d_row <=? 0)%Z || (d_col <=? 0)%Z).

(** The second test in the body of the isolation loop. *)
Definition is_phi_root (delta_phi lambda : Matrix Real) (ij : Point) : bool :=
  let '(i, j) := ij in
  let d_row := (sgn (coeff delta_phi i j) * sgn (coeff delta_phi i (j - 1)))%Z in
  let d_col := (sgn (coeff delta_phi i j) * sgn (coeff delta_phi (i - 1) j))%Z in
  let d_row_lambda := (sgn (coeff lambda i j) * sgn (coeff lambda i (j - 1)))%Z in
  let d_col_lambda := (sgn (coeff lambda i j) * sgn (coeff lambda (i - 1) j))%Z in
  negb (r_isnan (coeff delta_phi i j)) && negb (r_isnan (coeff delta_phi i (j - 1))) &&
  negb (r_isnan (coeff delta_phi (i - 1) j)) &&
  negb (r_isnan (coeff lambda i j)) && negb (r_isnan (coeff lambda i (j - 1))) &&
  negb (r_isnan (coeff lambda (i - 1) j)) && (0 <? d_row_lambda)%Z &&
  (0 <? d_col_lambda)%Z &&
  ((d_row <=? 0)%Z || (d_col <=? 0)%Z).

(** The cells of [blocked_range2d(1, lgd_size, 1, rc_size)], row by row. *)
Definition interior_cells (lgd_size rc_size : nat) : list Point :=
  flat_map (λ i, map (λ j, (i, j)) (seq 1 (rc_size - 1))) (seq 1 (lgd_size - 1)).

(** [theta_roots_index] and [phi_roots_index] after the isolation loop. *)
Definition theta_roots_index_of (s : SweepResult Real) (lgd_size rc_size : nat)
  : list Point :=
  arrival (List.filter (is_theta_root (Sweep.delta_theta s))
                       (interior_cells lgd_size rc_size)).

Definition phi_roots_index_of (s : SweepResult Real) (lgd_size rc_size : nat)
  : list Point :=
  arrival (List.filter (is_phi_root (Sweep.delta_phi s) (Sweep.lambda s))
                       (interior_cells lgd_size rc_size)).

(** The row [(rc_list[get<1>], lgd_list[get<0>])] of a point. *)
Definition grid_point (rc_list lgd_list : list Real) (p : Point) : Real * Real :=
  (vec_at rc_list (snd p), vec_at lgd_list (fst p)).

(** *** [sweep_rc_d]: pairing, ranking, refinement *)

(** [bg::distance] of two integer points, a [double] whatever [Real] is:
    the square root of the squared distance, exact up to the rounding of the
    root for any grid that fits in memory. *)
Definition bg_distance (p q : Point) : float :=
  let dx := (Z.of_nat (fst p) - Z.of_nat (fst q))%Z in
  let dy := (Z.of_nat (snd p) - Z.of_nat (snd q))%Z in
  PrimFloat.sqrt (Float64.of_int (dx * dx + dy * dy)).

(** [theta_roots_closest_index[indices[i]]] for each [i], in order;
    [std::sort] works in place, so [indices] keeps its length. *)
Definition ranked (theta_roots_index phi_roots_index : list Point) : list Point :=
  let theta_roots_closest_index := map (rtree_nearest phi_roots_index) theta_roots_index in
  let distances := zip_with bg_distance theta_roots_index theta_roots_closest_index in
  let indices :=
    std_sort (λ i1 i2, PrimFloat.ltb (default PrimFloat.nan (distances !! i1))
                                     (default PrimFloat.nan (distances !! i2)))
             (seq 0 (length theta_roots_index)) in
  map (λ k, default (0, 0) (theta_roots_closest_index !! k)) indices.

(** The body of the refinement loop for one ranked point: the root it
    appends to [results], if any. *)
Definition refine (params_ : ForwardRayTracingParams Real) (theta_o_ phi_o_ tol : Real)
    (rc_list lgd_list : list Real) (phi : Matrix Real) (p : Point)
  : option (ForwardRayTracingResult Real) :=
  let '(row, col) := p in
  let local_params := at_point (vec_at rc_list col, vec_at lgd_list row) params_ in
  let period_ := MY_FLOOR_convert (coeff phi row col ⊘ two_pi) in
  let root_res := find_root_period local_params period_ theta_o_ phi_o_ tol in
  if success root_res then root root_res else None.

(** *** [sweep_rc_d]: removing duplicates *)

(** The test of the inner loop. *)
Definition is_duplicate (tol : Real) (ri rj : ForwardRayTracingResult Real) : bool :=
  r_lt (r_abs (Result.rc ri ⊖ Result.rc rj)) tol &&
  r_lt (r_abs (Result.log_abs_d ri ⊖ Result.log_abs_d rj)) tol.

(** The inner loop for [results[i] = ri]: [rest] holds [results[j], ...]. *)
Fixpoint first_duplicate (tol : Real) (ri : ForwardRayTracingResult Real)
    (rest : list (ForwardRayTracingResult Real)) (j : nat) : option nat :=
  match rest with
  | [] => None
  | rj :: rest' =>
      if is_duplicate tol ri rj then Some j else first_duplicate tol ri rest' (S j)
  end.

(** The outer loop from index [i] on: what it pushes to [duplicated_index]. *)
Fixpoint duplicated_index_from (tol : Real) (i : nat)
    (results : list (ForwardRayTracingResult Real)) : list nat :=
  match results with
  | [] => []
  | ri :: rest =>
      match first_duplicate tol ri rest (S i) with
      | Some j => j :: duplicated_index_from tol (S i) rest
      | None => duplicated_index_from tol (S i) rest
      end
  end.

(** [v.erase(v.begin() + pos)]; undefined for [pos >= v.size()]. *)
Definition erase {A : Type} (pos : nat) (v : list A) : option (list A) :=
  if decide (pos < length v) then Some (delete pos v) else None.

(** The closing loop: the entries of [duplicated_index] erased one after
    the other, [positions] listing them last to first. *)
Fixpoint erase_each {A : Type} (positions : list nat) (v : list A) : option (list A) :=
  match positions with
  | [] => Some v
  | pos :: positions' => erase pos v ≫= erase_each positions'
  end.

(** Lines 462-480. *)
Definition remove_duplicated (tol : Real) (results : list (ForwardRayTracingResult Real))
  : option (list (ForwardRayTracingResult Real)) :=
  let duplicated_index := merge_sort Nat.le (duplicated_index_from tol 0 results) in
  erase_each (rev duplicated_index) results.

(** *** [sweep_rc_d] *)

(** [None] stands for the undefined behaviour of an [erase] past the end. *)
Definition sweep_rc_d (params_ : ForwardRayTracingParams Real) (theta_o_ phi_o_ : Real)
    (rc_list lgd_list : list Real) (cutoff : nat) (tol : Real)
  : option (SweepResult Real) :=
  let phi_o_ := wrap_phi phi_o_ in
  let rc_size := length rc_list in
  let lgd_size := length lgd_list in
  let sweep_result := sampled params_ theta_o_ phi_o_ rc_list lgd_list in
  let theta_roots_index := theta_roots_index_of sweep_result lgd_size rc_size in
  let phi_roots_index := phi_roots_index_of sweep_result lgd_size rc_size in
  if bool_decide (theta_roots_index = []) && bool_decide (phi_roots_index = [])
  then Some sweep_result
  else
    let sweep_result :=
      Sweep.set_theta_roots (map (grid_point rc_list lgd_list) theta_roots_index)
                            sweep_result in
    if bool_decide (phi_roots_index = []) then Some sweep_result
    else
      let sweep_result :=
        Sweep.set_phi_roots (map (grid_point rc_list lgd_list) phi_roots_index)
                            sweep_result in
      let closest := ranked theta_roots_index phi_roots_index in
      let sweep_result :=
        Sweep.set_theta_roots_closest (map (grid_point rc_list lgd_list) closest)
                                      sweep_result in
      let cutoff := cutoff `min` length closest in
      let results :=
        arrival (omap (refine params_ theta_o_ phi_o_ tol rc_list lgd_list
                              (Sweep.phi sweep_result))
                      (take cutoff closest)) in
      results ← remove_duplicated tol results;
      Some (Sweep.set_results results sweep_result).

End Utils.

(** ** The high-precision path *)

(** [HigherPrecision<Real>::Type] and the conversions between the two
    precisions: the implicit promotion of a [Real], the [cast<LReal>()] of a
    matrix entry, and the two helpers of ForwardRayTracing.h (outside src/),
    [ForwardRayTracingParams::get_high_prec] and [get_low_prec] on a
    [ForwardRayTracingResult]. *)
Class HigherPrecision (Real HReal : Type) := {
  promote : Real → HReal;
  cast_low : HReal → Real;
  get_high_prec : ForwardRayTracingParams Real → ForwardRayTracingParams HReal;
  get_low_prec_result : ForwardRayTracingResult HReal → ForwardRayTracingResult Real
}.

Section HighPrecision.
Context {Real HReal : Type}.
Context `{!Numeric HReal, !Oracle HReal, !RootSolver HReal, !Runtime}.
Context `{!HigherPrecision Real HReal}.

(** [x.cast<LReal>()] on a matrix and on a two-column matrix. *)
Definition cast_matrix (m : Matrix HReal) : Matrix Real := map (map cast_low) m.

Definition cast_points (m : PointVector HReal) : PointVector Real :=
  map (λ row, (cast_low (fst row), cast_low (snd row))) m.

(** [get_low_prec] on a [SweepResult]; the loop pushes the results back one
    by one. *)
Definition get_low_prec (x : SweepResult HReal) : SweepResult Real :=
  Sweep.mk (cast_matrix (Sweep.theta x)) (cast_matrix (Sweep.phi x))
           (cast_matrix (Sweep.lambda x)) (cast_matrix (Sweep.eta x))
           (cast_matrix (Sweep.delta_theta x)) (cast_matrix (Sweep.delta_phi x))
           (cast_points (Sweep.theta_roots x)) (cast_points (Sweep.phi_roots x))
           (cast_points (Sweep.theta_roots_closest x))
           (foldl (λ result res, result ++ [get_low_prec_result res]) [] (Sweep.results x)).

(** The loops that fill [rc_list_h] and [lgd_list_h]: a vector of
    [list.size()] zeros, assigned entry by entry. *)
Definition promote_list (l : list Real) : list HReal :=
  foldl (λ l_h i, match l !! i with
                  | Some x => <[i := promote x]> l_h
                  | None => l_h
                  end)
        (replicate (length l) (r_of_int 0)) (seq 0 (length l)).

(** [sweep_rc_d_high] *)
Definition sweep_rc_d_high (params_ : ForwardRayTracingParams Real) (theta_o_ phi_o_ : Real)
    (rc_list lgd_list : list Real) (cutoff : nat) (tol : Real)
  : option (SweepResult Real) :=
  let params_h := get_high_prec params_ in
  let theta_o_h := promote theta_o_ in
  let phi_o_h := promote phi_o_ in
  let rc_list_h := promote_list rc_list in
  let lgd_list_h := promote_list lgd_list in
  let tol_h := promote tol in
  let result := sweep_rc_d params_h theta_o_h phi_o_h rc_list_h lgd_list_h cutoff tol_h in
  get_low_prec <$> result.

(** The specification's words for the same path (section 4.5): promote
    every numeric input, run the sweep at the higher precision, cast every
    field of its result back. *)
Definition cast_back (x : SweepResult HReal) : SweepResult Real :=
  {| Sweep.theta := map (map cast_low) (Sweep.theta x);
     Sweep.phi := map (map cast_low) (Sweep.phi x);
     Sweep.lambda := map (map cast_low) (Sweep.lambda x);
     Sweep.eta := map (map cast_low) (Sweep.eta x);
     Sweep.delta_theta := map (map cast_low) (Sweep.delta_theta x);
     Sweep.delta_phi := map (map cast_low) (Sweep.delta_phi x);
     Sweep.theta_roots := map (prod_map cast_low cast_low) (Sweep.theta_roots x);
     Sweep.phi_roots := map (prod_map cast_low cast_low) (Sweep.phi_roots x);
     Sweep.theta_roots_closest :=
       map (prod_map cast_low cast_low) (Sweep.theta_roots_closest x);
     Sweep.results := map get_low_prec_result (Sweep.results x) |}.

Definition sweepHighPrecision_spec (params_ : ForwardRayTracingParams Real)
    (theta_o_ phi_o_ : Real) (rc_list lgd_list : list Real) (cutoff : nat) (tol : Real)
  : option (SweepResult Real) :=
  cast_back <$> sweep_rc_d (get_high_prec params_) (promote theta_o_) (promote phi_o_)
                           (map promote rc_list) (map promote lgd_list) cutoff (promote tol).

End HighPrecision.

(** ** A synthetic world for the closed examples *)

Module Synthetic.

(** An Oracle in the style of the specification's test scenarios: a ray
    with [0 <= rc] ends at [theta_f = rc] and [phi_f = log_abs_d], any
    other is confined. *)
Definition oracle_rc_d_to_lambda_q (p : ForwardRayTracingParams float)
  : ForwardRayTracingParams float :=
  Params.mk (Params.a p) (Params.r_s p) (Params.theta_s p) (Params.r_o p)
            (Params.nu_r p) (Params.nu_theta p)
            (Params.rc p) (Params.log_abs_d p) (Params.d_sign p)
            (Params.rc p) (Params.log_abs_d p) (Params.print_args_error p).

Definition oracle_calc_ray (p : ForwardRayTracingParams float) : ForwardRayTracing float :=
  if PrimFloat.leb 0 (Params.rc p)
  then Ray.mk NORMAL (Params.rc p) (Params.log_abs_d p) 1%float 1%float
  else Ray.mk CONFINED PrimFloat.nan PrimFloat.nan PrimFloat.nan PrimFloat.nan.

Definition oracle_to_result (rt : ForwardRayTracing float) : ForwardRayTracingResult float :=
  Result.mk 0%float 0%float POSITIVE (Ray.theta_f rt) (Ray.phi_f rt)
            (Ray.lambda rt) (Ray.eta rt) (Ray.ray_status rt).

Definition status_name (st : RayStatus) : string :=
  match st with
  | NORMAL => "NORMAL"
  | CONFINED => "CONFINED"
  | ETA_OUT_OF_RANGE => "ETA_OUT_OF_RANGE"
  | THETA_OUT_OF_RANGE => "THETA_OUT_OF_RANGE"
  | ARGUMENT_ERROR => "ARGUMENT_ERROR"
  | UNKOWN_ERROR => "UNKOWN_ERROR"
  end.

#[export] Instance oracle : Oracle float := {|
  rc_d_to_lambda_q := oracle_rc_d_to_lambda_q;
  calc_ray := oracle_calc_ray;
  to_result := oracle_to_result;
  get_from_cache := Ray.mk UNKOWN_ERROR 0%float 0%float 0%float 0%float;
  result_default := Result.mk 0%float 0%float POSITIVE 0%float 0%float 0%float 0%float NORMAL;
  ray_status_to_str := status_name;
  fmt_real := λ _, "<double>"%string
|}.

(** A solver that steps [x := x - F(x)] a fixed number of times. *)
Fixpoint picard (n : nat)
    (F : Vector float → FunctorState float → Vector float * FunctorState float)
    (x : Vector float) (s : FunctorState float) : Vector float * FunctorState float :=
  match n with
  | O => (x, s)
  | S n' =>
      let '(r, s') := F x s in
      picard n' F (PrimFloat.sub (fst x) (fst r), PrimFloat.sub (snd x) (snd r)) s'
  end.

#[export] Instance solver : RootSolver float := {| broyden_df := picard 3 |}.

(** One worker: a range is handed over whole, appends land in loop order,
    the nearest point is found by a scan and the sort is a merge sort. *)
Definition sq_distance (p q : Point) : Z :=
  let dx := (Z.of_nat (fst p) - Z.of_nat (fst q))%Z in
  let dy := (Z.of_nat (snd p) - Z.of_nat (snd q))%Z in
  (dx * dx + dy * dy)%Z.

Fixpoint scan_nearest (pts : list Point) (p : Point) : Point :=
  match pts with
  | [] => (0, 0)
  | [q] => q
  | q :: pts' =>
      let best := scan_nearest pts' p in
      if (sq_distance p q <=? sq_distance p best)%Z then q else best
  end.

#[export] Program Instance one_worker : Runtime := {|
  blocked_ranges b e := [(b, e)];
  arrival A l := l;
  rtree_nearest := scan_nearest;
  std_sort cmp l := merge_sort (λ x y, Is_true (cmp x y)) l
|}.
Next Obligation. intros b e. simpl. by rewrite app_nil_r. Qed.
Next Obligation. done. Qed.
Next Obligation. intros cmp l. apply merge_sort_Permutation. Qed.

(** Two workers that finish in the opposite order: the upper half of a
    range lands first, and concurrent appends end up reversed. *)
Program Definition two_workers : Runtime := {|
  blocked_ranges b e := [(b + (e - b) / 2, e); (b, b + (e - b) / 2)];
  arrival A l := rev l;
  rtree_nearest := scan_nearest;
  std_sort cmp l := merge_sort (λ x y, Is_true (cmp x y)) l
|}.
Next Obligation.
  intros b e. unfold range_indices. cbn [map concat fst snd]. rewrite app_nil_r.
  set (h := (e - b) / 2).
  assert (h ≤ e - b) by (apply Nat.Div0.div_le_upper_bound; lia).
  replace (b + h - b) with h by lia.
  replace (seq b (e - b)) with (seq b (h + (e - (b + h)))) by (f_equal; lia).
  rewrite seq_app. apply Permutation_app_comm.
Qed.
Next Obligation. intros A l. symmetry. apply Permutation_rev. Qed.
Next Obligation. intros cmp l. apply merge_sort_Permutation. Qed.

(** binary64 promoted to itself. *)
#[export] Instance same_precision : HigherPrecision float float := {|
  promote := id;
  cast_low := id;
  get_high_prec := id;
  get_low_prec_result := id
|}.

(** A second Oracle, for which every point is an image of the target
    [(1, 1)]. *)
Definition everywhere : Oracle float := {|
  rc_d_to_lambda_q := oracle_rc_d_to_lambda_q;
  calc_ray := λ _, Ray.mk NORMAL 1%float 1%float 1%float 1%float;
  to_result := oracle_to_result;
  get_from_cache := Ray.mk UNKOWN_ERROR 0%float 0%float 0%float 0%float;
  result_default := Result.mk 0%float 0%float POSITIVE 0%float 0%float 0%float 0%float NORMAL;
  ray_status_to_str := status_name;
  fmt_real := λ _, "<double>"%string
|}.

(** A refined root at [(rc, log_abs_d)]. *)
Definition root_at (rc log_abs_d : float) : ForwardRayTracingResult float :=
  Result.mk rc log_abs_d POSITIVE 1%float 1%float 1%float 1%float NORMAL.

Definition params0 : ForwardRayTracingParams float :=
  Params.mk 0.5%float 10%float 1.5%float 1000%float POSITIVE POSITIVE
            1%float 1%float POSITIVE 0%float 0%float true.

End Synthetic.

(** * Properties *)

(** Stdlib's [map] is stdpp's [fmap] on lists. *)
Lemma map_fmap {A B : Type} (f : A → B) (l : list A) : map f l = f <$> l.
Proof. induction l as [|x l IH]; [done|]. cbn. by rewrite IH. Qed.

(** A loop that assigns [dst[i] = f(src[i])] for the indices [idxs], in
    that order: the length never changes, a visited cell holds the image of
    its input, any other cell is untouched. *)
Lemma foldl_insert_lookup {A B : Type} (f : A → B) (src : list A) (idxs : list nat)
    (dst : list B) :
  length dst = length src →
  let dst' :=
    foldl (λ d i, match src !! i with Some x => <[i := f x]> d | None => d end)
          dst idxs in
  length dst' = length src ∧
  ∀ i x, src !! i = Some x →
         dst' !! i = if decide (i ∈ idxs) then Some (f x) else dst !! i.
Proof.
  revert dst. induction idxs as [|k idxs IH]; intros dst Hlen; cbn zeta.
  - split; [done|]. intros i x _. by rewrite decide_False by apply not_elem_of_nil.
  - cbn [foldl].
    set (dst1 := match src !! k with Some x => <[k := f x]> dst | None => dst end).
    assert (Hlen1 : length dst1 = length src).
    { subst dst1. destruct (src !! k); [by rewrite length_insert|done]. }
    destruct (IH dst1 Hlen1) as [Hl Hlook]. split; [exact Hl|].
    intros i x Hi. rewrite (Hlook i x Hi).
    destruct (decide (i ∈ idxs)) as [Hin|Hnin].
    + by rewrite decide_True by (by right).
    + destruct (decide (i = k)) as [->|Hne].
      * rewrite decide_True by left. subst dst1. rewrite Hi.
        apply list_lookup_insert_eq. rewrite Hlen. by eapply lookup_lt_Some.
      * rewrite decide_False by (rewrite elem_of_cons; tauto).
        subst dst1. destruct (src !! k); [|done].
        by rewrite list_lookup_insert_ne.
Qed.

(** Once every index has been visited the loop has computed [map f src]. *)
Lemma foldl_insert_all {A B : Type} (f : A → B) (src : list A) (idxs : list nat)
    (dst : list B) :
  length dst = length src →
  idxs ≡ₚ seq 0 (length src) →
  foldl (λ d i, match src !! i with Some x => <[i := f x]> d | None => d end) dst idxs
  = map f src.
Proof.
  intros Hlen Hperm.
  destruct (foldl_insert_lookup f src idxs dst Hlen) as [Hl Hlook].
  apply list_eq. intros i. rewrite map_fmap, list_lookup_fmap.
  destruct (src !! i) as [x|] eqn:Hi.
  - rewrite (Hlook i x Hi). rewrite decide_True; [done|].
    rewrite Hperm. apply elem_of_seq. apply lookup_lt_Some in Hi. lia.
  - apply lookup_ge_None. rewrite Hl. by apply lookup_ge_None.
Qed.

(** A loop of [push_back]s. *)
Lemma foldl_push_back {A B : Type} (g : A → B) (l : list A) (acc : list B) :
  foldl (λ result x, result ++ [g x]) acc l = acc ++ map g l.
Proof.
  revert acc. induction l as [|x l IH]; intros acc; cbn [foldl map].
  - by rewrite app_nil_r.
  - rewrite IH. by rewrite <- app_assoc.
Qed.

(** ** [calc_ray_batch] *)

Section BatchProperties.
Context {Real : Type} `{!Numeric Real, !Oracle Real, !RootSolver Real, !Runtime}.

(** Running the body over a list of subranges is running its step over
    their indices, one after the other. *)
Lemma batch_ranges_flatten (params_list : list (ForwardRayTracingParams Real))
    (ranges : list (nat * nat)) (results : list (ForwardRayTracingResult Real)) :
  foldl (calc_ray_batch_body params_list) results ranges =
  foldl (λ res i,
           match params_list !! i with
           | Some p => <[i := to_result (calc_ray p)]> res
           | None => res
           end)
        results (concat (map range_indices ranges)).
Proof.
  revert results. induction ranges as [|r ranges IH]; intros results; [done|].
  cbn [map concat foldl]. rewrite foldl_app. apply IH.
Qed.

(** C9. [calc_ray_batch] returns a list as long as its input whose i-th
    entry is the Oracle evaluation of the i-th input, whatever subranges
    [parallel_for] cuts the index range into and in whatever order they
    run. *)
Theorem calc_ray_batch_in_order (params_list : list (ForwardRayTracingParams Real)) :
  calc_ray_batch params_list = map Utils_calc_ray params_list ∧
  length (calc_ray_batch params_list) = length params_list ∧
  ∀ i, calc_ray_batch params_list !! i = Utils_calc_ray <$> params_list !! i.
Proof.
  assert (Heq : calc_ray_batch params_list = map Utils_calc_ray params_list).
  { unfold calc_ray_batch. rewrite batch_ranges_flatten.
    pose proof (blocked_ranges_cover 0 (length params_list)) as Hcover.
    rewrite Nat.sub_0_r in Hcover.
    apply (foldl_insert_all Utils_calc_ray); [apply length_replicate|exact Hcover]. }
  split; [exact Heq|]. rewrite Heq. split.
  - apply length_map.
  - intros i. apply list_lookup_fmap.
Qed.

End BatchProperties.

(** ** The residual functor and the root search *)

Section RootProperties.
Context {Real : Type} `{!Numeric Real, !Oracle Real, !RootSolver Real, !Runtime}.

(** Whatever it returns, a call leaves the functor holding the parameters
    of the point it was called at and that point's evaluation. *)
Lemma RootFunctor_call_state (f : RootFunctor) (x : Vector Real) (s : FunctorState Real) :
  snd (RootFunctor_call f x s) =
  {| params := at_point x (params s);
     ray_tracing := calc_ray (at_point x (params s)) |}.
Proof. unfold RootFunctor_call. by case_decide. Qed.

Lemma RootFunctor_call_normal (f : RootFunctor) (x : Vector Real) (s : FunctorState Real) :
  Ray.ray_status (calc_ray (at_point x (params s))) = NORMAL →
  fst (RootFunctor_call f x s) =
  (Ray.theta_f (calc_ray (at_point x (params s))) ⊖ theta_o f,
   if fixed_period f
   then Ray.phi_f (calc_ray (at_point x (params s))) ⊖ phi_o f ⊖ r_of_int (period f) ⊗ two_pi
   else r_sin ((Ray.phi_f (calc_ray (at_point x (params s))) ⊖ phi_o f) ⊗ half)).
Proof. intros Hst. unfold RootFunctor_call. by rewrite decide_False by (by rewrite Hst; intros []). Qed.

Lemma RootFunctor_call_invalid (f : RootFunctor) (x : Vector Real) (s : FunctorState Real) :
  Ray.ray_status (calc_ray (at_point x (params s))) ≠ NORMAL →
  fst (RootFunctor_call f x s) = (quiet_NaN, quiet_NaN).
Proof. intros Hst. unfold RootFunctor_call. by rewrite decide_True. Qed.

(** [find_root_period_solve] written out: the solver runs on the functor
    chosen by the period, from the [rc] and [log_abs_d] of the parameters;
    the functor is then called once more at the solver's final point, and
    that call leaves the Oracle's evaluation of the final point behind. *)
Lemma find_root_period_solve_eq (params_ : ForwardRayTracingParams Real) (period_ : Z)
    (theta_o_ phi_o_ : Real) :
  let f := make_root_functor period_ theta_o_ (wrap_phi phi_o_) in
  let xs := broyden_df (RootFunctor_call f) (Params.rc params_, Params.log_abs_d params_)
              {| params := params_; ray_tracing := get_from_cache |} in
  find_root_period_solve params_ period_ theta_o_ phi_o_ =
  (fst xs, fst (RootFunctor_call f (fst xs) (snd xs)),
   {| params := at_point (fst xs) (params (snd xs));
      ray_tracing := calc_ray (at_point (fst xs) (params (snd xs))) |}).
Proof.
  intros f xs. unfold find_root_period_solve. cbn zeta. fold f. fold xs.
  by rewrite RootFunctor_call_state.
Qed.

(** [find_root_period] written out on the solver's final point. *)
Lemma find_root_period_eq (params_ : ForwardRayTracingParams Real) (period_ : Z)
    (theta_o_ phi_o_ tol : Real) :
  let f := make_root_functor period_ theta_o_ (wrap_phi phi_o_) in
  let xs := broyden_df (RootFunctor_call f) (Params.rc params_, Params.log_abs_d params_)
              {| params := params_; ray_tracing := get_from_cache |} in
  let x := fst xs in
  let p := at_point x (params (snd xs)) in
  let residual := fst (RootFunctor_call f x (snd xs)) in
  find_root_period params_ period_ theta_o_ phi_o_ tol =
  if decide (Ray.ray_status (calc_ray p) ≠ NORMAL) then
    {| success := false;
       fail_reason := "ray status: " ++ ray_status_to_str (Ray.ray_status (calc_ray p));
       root := None |}
  else if r_gt (norm residual) tol then
    {| success := false;
       fail_reason := "residual > threshold: " ++ fmt_real (norm residual)
                        ++ " > " ++ fmt_real tol;
       root := None |}
  else
    {| success := true; fail_reason := "";
       root := Some (Result.set_root (fst x) (snd x) (Params.d_sign p)
                                     (to_result (calc_ray p))) |}.
Proof.
  intros f xs x p residual. unfold find_root_period.
  by rewrite find_root_period_solve_eq.
Qed.

(** C2, as the code has it.  On a point where the Oracle reports NORMAL,
    the functor returns [theta_f - theta_o] and, built with a period,
    [phi_f - phi_o - period * two_pi], built without one,
    [sin((phi_f - phi_o) * half)].  [find_root_period] called with period [P]
    runs the solver on the functor for [theta_o_] and the wrapped [phi_o_]
    and calls it once more at the solver's final point; when the Oracle
    reports NORMAL there, what it measures is the first form when [P] is not
    [INT_MAX]; [INT_MAX] is the value it reserves for: no period, and it
    then measures the sine form, as [find_root] does. *)
Theorem residual_components (f : RootFunctor) (x : Vector Real) (s : FunctorState Real)
    (params_ : ForwardRayTracingParams Real) (P : Z) (theta_o_ phi_o_ : Real) :
  let rt := calc_ray (at_point x (params s)) in
  let g := make_root_functor P theta_o_ (wrap_phi phi_o_) in
  let xs := broyden_df (RootFunctor_call g) (Params.rc params_, Params.log_abs_d params_)
              {| params := params_; ray_tracing := get_from_cache |} in
  let final := calc_ray (at_point (fst xs) (params (snd xs))) in
  (Ray.ray_status rt = NORMAL →
   fst (RootFunctor_call f x s) =
     (Ray.theta_f rt ⊖ theta_o f,
      if fixed_period f
      then Ray.phi_f rt ⊖ phi_o f ⊖ r_of_int (period f) ⊗ two_pi
      else r_sin ((Ray.phi_f rt ⊖ phi_o f) ⊗ half))) ∧
  (fixed_period (RootFunctor_period P theta_o_ phi_o_) = true ∧
   period (RootFunctor_period P theta_o_ phi_o_) = P ∧
   theta_o (RootFunctor_period P theta_o_ phi_o_) = theta_o_ ∧
   phi_o (RootFunctor_period P theta_o_ phi_o_) = phi_o_) ∧
  (fixed_period (RootFunctor_any theta_o_ phi_o_) = false ∧
   theta_o (RootFunctor_any theta_o_ phi_o_) = theta_o_ ∧
   phi_o (RootFunctor_any theta_o_ phi_o_) = phi_o_) ∧
  find_root_period_solve params_ P theta_o_ phi_o_ =
    (fst xs, fst (RootFunctor_call g (fst xs) (snd xs)),
     {| params := at_point (fst xs) (params (snd xs)); ray_tracing := final |}) ∧
  (Ray.ray_status final = NORMAL →
   fst (RootFunctor_call g (fst xs) (snd xs)) =
     (Ray.theta_f final ⊖ theta_o_,
      if decide (P = INT_MAX)
      then r_sin ((Ray.phi_f final ⊖ wrap_phi phi_o_) ⊗ half)
      else Ray.phi_f final ⊖ wrap_phi phi_o_ ⊖ r_of_int P ⊗ two_pi)).
Proof.
  intros rt g xs final. split; [by apply RootFunctor_call_normal|].
  split; [done|]. split; [done|].
  split; [apply find_root_period_solve_eq|].
  intros Hfinal. rewrite (RootFunctor_call_normal g _ _ Hfinal).
  subst g. unfold make_root_functor. by case_decide.
Qed.

(** C4. [find_root_period] and [find_root] are total and return a
    discriminated result.  With [f] the functor for the wrapped target, [x]
    the point [broyden_df] ends on when run on [f] from the [rc] and
    [log_abs_d] of the parameters, [residual] the value of [f] called once
    more at [x], and [st] the status of the Oracle at [x]: when [st] is not
    NORMAL, or the norm of [residual] exceeds [tol], the result has
    [success = false], a reason naming the cause and no root; otherwise it
    has [success = true], no reason, and as root the Oracle's result at [x]
    with [rc] and [log_abs_d] set to the coordinates of [x]. *)
Theorem find_root_result (params_ : ForwardRayTracingParams Real) (P : Z)
    (theta_o_ phi_o_ tol : Real) :
  let outcome (res : FindRootResult Real) (period_ : Z) (target : Real) : Prop :=
    let f := make_root_functor period_ theta_o_ target in
    let xs := broyden_df (RootFunctor_call f) (Params.rc params_, Params.log_abs_d params_)
                {| params := params_; ray_tracing := get_from_cache |} in
    let x := fst xs in
    let p := at_point x (params (snd xs)) in
    let residual := fst (RootFunctor_call f x (snd xs)) in
    let st := Ray.ray_status (calc_ray p) in
    (st ≠ NORMAL →
       success res = false ∧ root res = None ∧
       fail_reason res = ("ray status: " ++ ray_status_to_str st)%string) ∧
    (st = NORMAL → r_gt (norm residual) tol = true →
       success res = false ∧ root res = None ∧
       fail_reason res = ("residual > threshold: " ++ fmt_real (norm residual)
                            ++ " > " ++ fmt_real tol)%string) ∧
    (st = NORMAL → r_gt (norm residual) tol = false →
       success res = true ∧ fail_reason res = ""%string ∧
       root res = Some (Result.set_root (fst x) (snd x) (Params.d_sign p)
                                        (to_result (calc_ray p))) ∧
       ∃ r, root res = Some r ∧ Result.rc r = fst x ∧ Result.log_abs_d r = snd x) in
  outcome (find_root_period params_ P theta_o_ phi_o_ tol) P (wrap_phi phi_o_) ∧
  outcome (find_root params_ theta_o_ phi_o_ tol) INT_MAX (wrap_phi (wrap_phi phi_o_)).
Proof.
  assert (Hgen : ∀ P' phi',
    let res := find_root_period params_ P' theta_o_ phi' tol in
    let f := make_root_functor P' theta_o_ (wrap_phi phi') in
    let xs := broyden_df (RootFunctor_call f) (Params.rc params_, Params.log_abs_d params_)
                {| params := params_; ray_tracing := get_from_cache |} in
    let x := fst xs in
    let p := at_point x (params (snd xs)) in
    let residual := fst (RootFunctor_call f x (snd xs)) in
    let st := Ray.ray_status (calc_ray p) in
    (st ≠ NORMAL →
       success res = false ∧ root res = None ∧
       fail_reason res = ("ray status: " ++ ray_status_to_str st)%string) ∧
    (st = NORMAL → r_gt (norm residual) tol = true →
       success res = false ∧ root res = None ∧
       fail_reason res = ("residual > threshold: " ++ fmt_real (norm residual)
                            ++ " > " ++ fmt_real tol)%string) ∧
    (st = NORMAL → r_gt (norm residual) tol = false →
       success res = true ∧ fail_reason res = ""%string ∧
       root res = Some (Result.set_root (fst x) (snd x) (Params.d_sign p)
                                        (to_result (calc_ray p))) ∧
       ∃ r, root res = Some r ∧ Result.rc r = fst x ∧ Result.log_abs_d r = snd x)).
  { intros P' phi' res f xs x p residual st. subst res.
    rewrite find_root_period_eq. fold f. fold xs. fold x. fold p. fold residual. fold st.
    split; [|split].
    - intros Hst. by rewrite decide_True.
    - intros Hst Hgt. rewrite decide_False by (by intros []). by rewrite Hgt.
    - intros Hst Hgt. rewrite decide_False by (by intros []). rewrite Hgt.
      split; [done|]. split; [done|]. split; [done|]. eexists. split; [done|]. done. }
  cbn zeta. split.
  - apply (Hgen P phi_o_).
  - apply (Hgen INT_MAX (wrap_phi phi_o_)).
Qed.

End RootProperties.

(** ** [sweep_rc_d]: sampling and root isolation *)

Section SweepProperties.
Context {Real : Type} `{!Numeric Real, !Oracle Real, !RootSolver Real, !Runtime}.

Lemma sample_matrix_lookup (field : GridSample → Real)
    (params_ : ForwardRayTracingParams Real) (theta_o_ phi_o_ : Real)
    (rc_list lgd_list : list Real) (i j : nat) (rc lgd : Real) :
  lgd_list !! i = Some lgd → rc_list !! j = Some rc →
  sample_matrix field params_ theta_o_ phi_o_ rc_list lgd_list !! i ≫= (λ row, row !! j)
  = Some (field (sample_cell params_ theta_o_ phi_o_ rc lgd)).
Proof.
  intros Hi Hj. unfold sample_matrix, Matrix.
  rewrite map_fmap, list_lookup_fmap, Hi. cbn.
  by rewrite map_fmap, list_lookup_fmap, Hj.
Qed.

Lemma coeff_sample_matrix (field : GridSample → Real)
    (params_ : ForwardRayTracingParams Real) (theta_o_ phi_o_ : Real)
    (rc_list lgd_list : list Real) (i j : nat) (rc lgd : Real) :
  lgd_list !! i = Some lgd → rc_list !! j = Some rc →
  coeff (sample_matrix field params_ theta_o_ phi_o_ rc_list lgd_list) i j
  = field (sample_cell params_ theta_o_ phi_o_ rc lgd).
Proof.
  intros Hi Hj. unfold coeff.
  by rewrite (sample_matrix_lookup _ _ _ _ _ _ _ _ _ _ Hi Hj).
Qed.

(** All six matrices have [lgd_size] rows of [rc_size] entries. *)
Lemma sample_matrix_has_size (field : GridSample → Real)
    (params_ : ForwardRayTracingParams Real) (theta_o_ phi_o_ : Real)
    (rc_list lgd_list : list Real) :
  has_size (sample_matrix field params_ theta_o_ phi_o_ rc_list lgd_list)
           (length lgd_list) (length rc_list).
Proof.
  unfold has_size, sample_matrix. split; [apply length_map|].
  induction lgd_list as [|lgd lgd_list IH]; cbn [map]; constructor; [apply length_map|done].
Qed.

Lemma sample_cell_invalid (params_ : ForwardRayTracingParams Real) (theta_o_ phi_o_ : Real)
    (rc lgd : Real) :
  Ray.ray_status (calc_ray (at_point (rc, lgd) params_)) ≠ NORMAL →
  sample_cell params_ theta_o_ phi_o_ rc lgd =
  {| s_theta := quiet_NaN; s_phi := quiet_NaN;
     s_delta_theta := quiet_NaN; s_delta_phi := quiet_NaN;
     s_lambda := quiet_NaN; s_eta := quiet_NaN |}.
Proof. intros Hst. unfold sample_cell, sample_of_ray. by rewrite decide_False. Qed.

(** [rc_d_to_lambda_q] is declared outside src/.  When it reads nothing of
    what it writes ([lambda] and [q]) and writes nothing else, a parameter
    block forgets the points it was used at before. *)
Lemma at_point_history (x y : Vector Real) (p : ForwardRayTracingParams Real) :
  (∀ p1 p2, Params.same_inputs p1 p2 → rc_d_to_lambda_q p1 = rc_d_to_lambda_q p2) →
  (∀ p1, Params.same_inputs (rc_d_to_lambda_q p1) p1) →
  at_point x (at_point y p) = at_point x p.
Proof.
  intros Hreads Hwrites. unfold at_point. apply Hreads.
  destruct (Hwrites (Params.set_log_abs_d (snd y) (Params.set_rc (fst y) p)))
    as (? & ? & ? & ? & ? & ? & _ & _ & ? & ?).
  unfold Params.same_inputs. cbn in *. repeat split; congruence.
Qed.

(** X5. Under the same two conditions a task that walks several cells
    with one [local_params] stores
    what single-cell tasks store: the sampled matrices do not depend on how
    [parallel_for] cuts the grid. *)
Lemma sample_run_cells (params_ : ForwardRayTracingParams Real) (theta_o_ phi_o_ : Real)
    (cells : list (Real * Real)) :
  (∀ p1 p2, Params.same_inputs p1 p2 → rc_d_to_lambda_q p1 = rc_d_to_lambda_q p2) →
  (∀ p1, Params.same_inputs (rc_d_to_lambda_q p1) p1) →
  sample_run params_ theta_o_ phi_o_ cells =
  map (λ cell, sample_cell params_ theta_o_ phi_o_ (fst cell) (snd cell)) cells.
Proof.
  intros Hreads Hwrites.
  assert (Hgen : ∀ local_params,
            (∀ x, at_point x local_params = at_point x params_) →
            sample_run local_params theta_o_ phi_o_ cells =
            map (λ cell, sample_cell params_ theta_o_ phi_o_ (fst cell) (snd cell)) cells).
  { induction cells as [|[rc lgd] cells IH]; intros local_params Hsame; [done|].
    cbn [sample_run map fst snd]. unfold sample_cell at 1. rewrite Hsame. f_equal.
    apply IH. intros x. rewrite <- Hsame. rewrite at_point_history by done. apply Hsame. }
  by apply Hgen.
Qed.

(** C5. Where the Oracle reports a status other than NORMAL, the residual
    functor returns the pair of quiet NaNs, and the sampling loop of
    [sweep_rc_d] stores the quiet NaN in the cell of each of the six
    matrices ([theta], [phi], [delta_theta], [delta_phi], [lambda],
    [eta]). *)
Theorem invalid_ray_is_NaN (f : RootFunctor) (x : Vector Real) (s : FunctorState Real)
    (params_ : ForwardRayTracingParams Real) (theta_o_ phi_o_ : Real)
    (rc_list lgd_list : list Real) (i j : nat) (rc lgd : Real) :
  Ray.ray_status (calc_ray (at_point x (params s))) ≠ NORMAL →
  lgd_list !! i = Some lgd → rc_list !! j = Some rc →
  Ray.ray_status (calc_ray (at_point (rc, lgd) params_)) ≠ NORMAL →
  let cell (m : Matrix Real) := m !! i ≫= (λ row, row !! j) in
  let sr := sampled params_ theta_o_ phi_o_ rc_list lgd_list in
  fst (RootFunctor_call f x s) = (quiet_NaN, quiet_NaN) ∧
  r_isnan (quiet_NaN : Real) = true ∧
  cell (Sweep.theta sr) = Some quiet_NaN ∧
  cell (Sweep.phi sr) = Some quiet_NaN ∧
  cell (Sweep.delta_theta sr) = Some quiet_NaN ∧
  cell (Sweep.delta_phi sr) = Some quiet_NaN ∧
  cell (Sweep.lambda sr) = Some quiet_NaN ∧
  cell (Sweep.eta sr) = Some quiet_NaN.
Proof.
  intros Hx Hi Hj Hcell cell sr.
  split; [by apply RootFunctor_call_invalid|].
  split; [apply r_isnan_quiet_NaN|].
  subst cell sr. unfold sampled. cbn [Sweep.theta Sweep.phi Sweep.delta_theta
    Sweep.delta_phi Sweep.lambda Sweep.eta].
  rewrite !(sample_matrix_lookup _ _ _ _ _ _ _ _ _ _ Hi Hj).
  by rewrite (sample_cell_invalid _ _ _ _ _ Hcell).
Qed.

Lemma elem_of_interior_cells (lgd_size rc_size i j : nat) :
  (i, j) ∈ interior_cells lgd_size rc_size ↔ (1 ≤ i < lgd_size) ∧ (1 ≤ j < rc_size).
Proof.
  unfold interior_cells. rewrite list_elem_of_In, in_flat_map. split.
  - intros (i' & Hi' & Hin). apply in_map_iff in Hin as (j' & Heq & Hj').
    injection Heq as -> ->. apply in_seq in Hi', Hj'. lia.
  - intros [Hi Hj]. exists i. split; [apply in_seq; lia|].
    apply in_map_iff. exists j. split; [done|apply in_seq; lia].
Qed.

Lemma elem_of_theta_roots_index (s : SweepResult Real) (lgd_size rc_size : nat) (p : Point) :
  p ∈ theta_roots_index_of s lgd_size rc_size ↔
  p ∈ interior_cells lgd_size rc_size ∧ is_theta_root (Sweep.delta_theta s) p = true.
Proof.
  unfold theta_roots_index_of. rewrite arrival_perm.
  rewrite !list_elem_of_In. apply filter_In.
Qed.

Lemma elem_of_phi_roots_index (s : SweepResult Real) (lgd_size rc_size : nat) (p : Point) :
  p ∈ phi_roots_index_of s lgd_size rc_size ↔
  p ∈ interior_cells lgd_size rc_size ∧
  is_phi_root (Sweep.delta_phi s) (Sweep.lambda s) p = true.
Proof.
  unfold phi_roots_index_of. rewrite arrival_perm.
  rewrite !list_elem_of_In. apply filter_In.
Qed.

Lemma is_theta_root_spec (delta_theta : Matrix Real) (i j : nat) :
  is_theta_root delta_theta (i, j) = true ↔
  r_isnan (coeff delta_theta i j) = false ∧
  r_isnan (coeff delta_theta i (j - 1)) = false ∧
  r_isnan (coeff delta_theta (i - 1) j) = false ∧
  ((sgn (coeff delta_theta i j) * sgn (coeff delta_theta i (j - 1)) ≤ 0)%Z ∨
   (sgn (coeff delta_theta i j) * sgn (coeff delta_theta (i - 1) j) ≤ 0)%Z).
Proof.
  unfold is_theta_root.
  rewrite !andb_true_iff, orb_true_iff, !negb_true_iff, !Z.leb_le. tauto.
Qed.

Lemma is_phi_root_spec (delta_phi lambda : Matrix Real) (i j : nat) :
  is_phi_root delta_phi lambda (i, j) = true ↔
  r_isnan (coeff delta_phi i j) = false ∧
  r_isnan (coeff delta_phi i (j - 1)) = false ∧
  r_isnan (coeff delta_phi (i - 1) j) = false ∧
  r_isnan (coeff lambda i j) = false ∧
  r_isnan (coeff lambda i (j - 1)) = false ∧
  r_isnan (coeff lambda (i - 1) j) = false ∧
  (0 < sgn (coeff lambda i j) * sgn (coeff lambda i (j - 1)))%Z ∧
  (0 < sgn (coeff lambda i j) * sgn (coeff lambda (i - 1) j))%Z ∧
  ((sgn (coeff delta_phi i j) * sgn (coeff delta_phi i (j - 1)) ≤ 0)%Z ∨
   (sgn (coeff delta_phi i j) * sgn (coeff delta_phi (i - 1) j) ≤ 0)%Z).
Proof.
  unfold is_phi_root.
  rewrite !andb_true_iff, orb_true_iff, !negb_true_iff, !Z.leb_le, !Z.ltb_lt. tauto.
Qed.

(** C3. For an interior cell (row and column at least 1): it is among the
    theta candidates exactly when [delta_theta] is not NaN at the cell, at
    its left neighbour and at its upper neighbour and one of the two sign
    products is at most 0; it is among the phi candidates exactly when the
    same holds for [delta_phi] and, besides, [lambda] is not NaN at the
    three cells and both of its sign products are positive.  So a cell is
    never flagged when it or a neighbour the test reads is NaN. *)
Theorem root_isolation (s : SweepResult Real) (lgd_size rc_size i j : nat) :
  1 ≤ i < lgd_size → 1 ≤ j < rc_size →
  let dt := coeff (Sweep.delta_theta s) in
  let dp := coeff (Sweep.delta_phi s) in
  let lam := coeff (Sweep.lambda s) in
  ((i, j) ∈ theta_roots_index_of s lgd_size rc_size ↔
     r_isnan (dt i j) = false ∧ r_isnan (dt i (j - 1)%nat) = false ∧
     r_isnan (dt (i - 1)%nat j) = false ∧
     ((sgn (dt i j) * sgn (dt i (j - 1)%nat) ≤ 0)%Z ∨
      (sgn (dt i j) * sgn (dt (i - 1)%nat j) ≤ 0)%Z)) ∧
  ((i, j) ∈ phi_roots_index_of s lgd_size rc_size ↔
     r_isnan (dp i j) = false ∧ r_isnan (dp i (j - 1)%nat) = false ∧
     r_isnan (dp (i - 1)%nat j) = false ∧
     r_isnan (lam i j) = false ∧ r_isnan (lam i (j - 1)%nat) = false ∧
     r_isnan (lam (i - 1)%nat j) = false ∧
     (0 < sgn (lam i j) * sgn (lam i (j - 1)%nat))%Z ∧
     (0 < sgn (lam i j) * sgn (lam (i - 1)%nat j))%Z ∧
     ((sgn (dp i j) * sgn (dp i (j - 1)%nat) ≤ 0)%Z ∨
      (sgn (dp i j) * sgn (dp (i - 1)%nat j) ≤ 0)%Z)) ∧
  (r_isnan (dt i j) = true ∨ r_isnan (dt i (j - 1)%nat) = true ∨
   r_isnan (dt (i - 1)%nat j) = true →
     (i, j) ∉ theta_roots_index_of s lgd_size rc_size) ∧
  (r_isnan (dp i j) = true ∨ r_isnan (dp i (j - 1)%nat) = true ∨
   r_isnan (dp (i - 1)%nat j) = true ∨
   r_isnan (lam i j) = true ∨ r_isnan (lam i (j - 1)%nat) = true ∨
   r_isnan (lam (i - 1)%nat j) = true →
     (i, j) ∉ phi_roots_index_of s lgd_size rc_size).
Proof.
  intros Hi Hj dt dp lam.
  assert (Hint : (i, j) ∈ interior_cells lgd_size rc_size)
    by (by apply elem_of_interior_cells).
  assert (Ht : (i, j) ∈ theta_roots_index_of s lgd_size rc_size ↔
               is_theta_root (Sweep.delta_theta s) (i, j) = true)
    by (rewrite elem_of_theta_roots_index; tauto).
  assert (Hp : (i, j) ∈ phi_roots_index_of s lgd_size rc_size ↔
               is_phi_root (Sweep.delta_phi s) (Sweep.lambda s) (i, j) = true)
    by (rewrite elem_of_phi_roots_index; tauto).
  rewrite Ht, Hp, is_theta_root_spec, is_phi_root_spec.
  fold dt dp lam. repeat split; try tauto.
  - intros Hnan (? & ? & ? & _). destruct Hnan as [?|[?|?]]; congruence.
  - intros Hnan (? & ? & ? & ? & ? & ? & _).
    destruct Hnan as [?|[?|[?|[?|[?|?]]]]]; congruence.
Qed.

End SweepProperties.

(** ** [sweep_rc_d]: the early returns *)

Section EarlyReturns.
Context {Real : Type} `{!Numeric Real, !Oracle Real, !RootSolver Real, !Runtime}.

Lemma filter_none {A : Type} (f : A → bool) (l : list A) :
  (∀ x, x ∈ l → f x = false) → List.filter f l = [].
Proof.
  induction l as [|x l IH]; intros Hall; [done|]. cbn [List.filter].
  rewrite (Hall x) by left. apply IH. intros y Hy. apply Hall. by right.
Qed.

Lemma arrival_nil {A : Type} : arrival (@nil A) = [].
Proof. apply Permutation_nil_r, arrival_perm. Qed.

(** A grid that is confined everywhere isolates nothing. *)
Lemma confined_grid_has_no_candidates (params_ : ForwardRayTracingParams Real)
    (theta_o_ phi_o_ : Real) (rc_list lgd_list : list Real) :
  (∀ rc lgd, rc ∈ rc_list → lgd ∈ lgd_list →
     Ray.ray_status (calc_ray (at_point (rc, lgd) params_)) = CONFINED) →
  let sr := sampled params_ theta_o_ phi_o_ rc_list lgd_list in
  theta_roots_index_of sr (length lgd_list) (length rc_list) = [] ∧
  phi_roots_index_of sr (length lgd_list) (length rc_list) = [].
Proof.
  intros Hconf sr.
  assert (Hnan : ∀ field i j,
            (∀ g, field g = s_delta_theta g) ∨ (∀ g, field g = s_delta_phi g) ∨
            (∀ g, field g = s_lambda g) →
            (i, j) ∈ interior_cells (length lgd_list) (length rc_list) →
            coeff (sample_matrix field params_ theta_o_ phi_o_ rc_list lgd_list) i j
            = quiet_NaN).
  { intros field i j Hfield Hin. apply elem_of_interior_cells in Hin as [Hi Hj].
    destruct (lookup_lt_is_Some_2 lgd_list i) as [lgd Hlgd]; [lia|].
    destruct (lookup_lt_is_Some_2 rc_list j) as [rc Hrc]; [lia|].
    rewrite (coeff_sample_matrix _ _ _ _ _ _ _ _ _ _ Hlgd Hrc).
    rewrite sample_cell_invalid.
    - by destruct Hfield as [->|[->| ->]].
    - rewrite Hconf; [done|by eapply list_elem_of_lookup_2..]. }
  unfold theta_roots_index_of, phi_roots_index_of. split.
  - rewrite filter_none; [apply arrival_nil|]. intros [i j] Hin.
    unfold is_theta_root. subst sr. unfold sampled. cbn [Sweep.delta_theta].
    by rewrite (Hnan _ i j (or_introl (λ _, eq_refl)) Hin), r_isnan_quiet_NaN.
  - rewrite filter_none; [apply arrival_nil|]. intros [i j] Hin.
    unfold is_phi_root. subst sr. unfold sampled. cbn [Sweep.delta_phi Sweep.lambda].
    by rewrite (Hnan _ i j (or_intror (or_introl (λ _, eq_refl))) Hin), r_isnan_quiet_NaN.
Qed.

(** C6. When the isolation loop finds no theta candidate and no phi
    candidate, [sweep_rc_d] returns the sweep result as the sampling loop
    left it: six matrices of [lgd_size] rows and [rc_size] columns, and
    empty [theta_roots], [phi_roots], [theta_roots_closest] and [results].
    That is the case, in particular, when the Oracle reports CONFINED at
    every grid point. *)
Theorem empty_sweep (params_ : ForwardRayTracingParams Real) (theta_o_ phi_o_ : Real)
    (rc_list lgd_list : list Real) (cutoff : nat) (tol : Real) :
  let sr := sampled params_ theta_o_ (wrap_phi phi_o_) rc_list lgd_list in
  let lgd_size := length lgd_list in
  let rc_size := length rc_list in
  let returns_empty : Prop :=
    sweep_rc_d params_ theta_o_ phi_o_ rc_list lgd_list cutoff tol = Some sr ∧
    Sweep.theta_roots sr = [] ∧ Sweep.phi_roots sr = [] ∧
    Sweep.theta_roots_closest sr = [] ∧ Sweep.results sr = [] ∧
    has_size (Sweep.theta sr) lgd_size rc_size ∧ has_size (Sweep.phi sr) lgd_size rc_size ∧
    has_size (Sweep.lambda sr) lgd_size rc_size ∧ has_size (Sweep.eta sr) lgd_size rc_size ∧
    has_size (Sweep.delta_theta sr) lgd_size rc_size ∧
    has_size (Sweep.delta_phi sr) lgd_size rc_size in
  (theta_roots_index_of sr lgd_size rc_size = [] →
   phi_roots_index_of sr lgd_size rc_size = [] →
   returns_empty) ∧
  ((∀ rc lgd, rc ∈ rc_list → lgd ∈ lgd_list →
      Ray.ray_status (calc_ray (at_point (rc, lgd) params_)) = CONFINED) →
   returns_empty).
Proof.
  intros sr lgd_size rc_size returns_empty.
  assert (Hgen : theta_roots_index_of sr lgd_size rc_size = [] →
                 phi_roots_index_of sr lgd_size rc_size = [] → returns_empty).
  { intros Ht Hp. subst returns_empty. split.
    - unfold sweep_rc_d. cbn zeta. fold sr lgd_size rc_size. by rewrite Ht, Hp.
    - repeat split; try done; apply sample_matrix_has_size. }
  split; [exact Hgen|]. intros Hconf.
  destruct (confined_grid_has_no_candidates params_ theta_o_ (wrap_phi phi_o_)
              rc_list lgd_list Hconf) as [Ht Hp].
  by apply Hgen.
Qed.

(** C10. When the isolation loop finds a theta candidate and no phi
    candidate, [sweep_rc_d] returns right after filling [theta_roots]: one
    row [(rc_list[col], lgd_list[row])] per theta candidate, in the order of
    [theta_roots_index], while [phi_roots], [theta_roots_closest] and
    [results] stay empty and the matrices are the sampled ones. *)
Theorem theta_only_sweep (params_ : ForwardRayTracingParams Real) (theta_o_ phi_o_ : Real)
    (rc_list lgd_list : list Real) (cutoff : nat) (tol : Real) :
  let sr := sampled params_ theta_o_ (wrap_phi phi_o_) rc_list lgd_list in
  let theta_roots_index := theta_roots_index_of sr (length lgd_list) (length rc_list) in
  theta_roots_index ≠ [] →
  phi_roots_index_of sr (length lgd_list) (length rc_list) = [] →
  ∃ r, sweep_rc_d params_ theta_o_ phi_o_ rc_list lgd_list cutoff tol = Some r ∧
       length (Sweep.theta_roots r) = length theta_roots_index ∧
       (∀ k i j, theta_roots_index !! k = Some (i, j) →
          ∃ rc lgd, rc_list !! j = Some rc ∧ lgd_list !! i = Some lgd ∧
                    Sweep.theta_roots r !! k = Some (rc, lgd)) ∧
       Sweep.phi_roots r = [] ∧ Sweep.theta_roots_closest r = [] ∧
       Sweep.results r = [] ∧
       Sweep.theta r = Sweep.theta sr ∧ Sweep.phi r = Sweep.phi sr ∧
       Sweep.lambda r = Sweep.lambda sr ∧ Sweep.eta r = Sweep.eta sr ∧
       Sweep.delta_theta r = Sweep.delta_theta sr ∧
       Sweep.delta_phi r = Sweep.delta_phi sr.
Proof.
  intros sr theta_roots_index Ht Hp.
  exists (Sweep.set_theta_roots (map (grid_point rc_list lgd_list) theta_roots_index) sr).
  split.
  { unfold sweep_rc_d. cbn zeta. fold sr theta_roots_index. rewrite Hp.
    rewrite (bool_decide_eq_false_2 _ Ht). cbn [andb].
    by rewrite bool_decide_eq_true_2. }
  cbn [Sweep.set_theta_roots Sweep.theta_roots Sweep.phi_roots Sweep.theta_roots_closest
       Sweep.results Sweep.theta Sweep.phi Sweep.lambda Sweep.eta Sweep.delta_theta
       Sweep.delta_phi].
  split; [apply length_map|]. split; [|done].
  intros k i j Hk.
  assert (Hin : (i, j) ∈ interior_cells (length lgd_list) (length rc_list)).
  { apply list_elem_of_lookup_2 in Hk. by apply elem_of_theta_roots_index in Hk as [? _]. }
  apply elem_of_interior_cells in Hin as [Hi Hj].
  destruct (lookup_lt_is_Some_2 lgd_list i) as [lgd Hlgd]; [lia|].
  destruct (lookup_lt_is_Some_2 rc_list j) as [rc Hrc]; [lia|].
  exists rc, lgd. split; [done|]. split; [done|].
  unfold PointVector, Point in *. rewrite map_fmap, list_lookup_fmap, Hk. cbn.
  unfold grid_point, vec_at. cbn [fst snd]. by rewrite Hlgd, Hrc.
Qed.

End EarlyReturns.

(** ** The high-precision path *)

Section HighPrecisionProperties.
Context {Real HReal : Type}.
Context `{!Numeric HReal, !Oracle HReal, !RootSolver HReal, !Runtime}.
Context `{!HigherPrecision Real HReal}.

(** The copying loops promote the lists entry by entry. *)
Lemma promote_list_map (l : list Real) : promote_list l = map promote l.
Proof.
  unfold promote_list. apply (foldl_insert_all promote); [apply length_replicate|done].
Qed.

(** [get_low_prec] casts every field. *)
Lemma get_low_prec_cast_back (x : SweepResult HReal) : get_low_prec x = cast_back x.
Proof.
  unfold get_low_prec, cast_back, cast_matrix, cast_points.
  rewrite foldl_push_back. cbn [app]. f_equal.
Qed.

(** C7. [sweep_rc_d_high] is the cast to working precision of [sweep_rc_d]
    run at the higher precision on the promoted inputs: the parameters, both
    target angles, the [rc] and [log_abs_d] lists and the tolerance are
    promoted, the sweep is the one generic [sweep_rc_d], and the six
    matrices, the three point lists and every refined result are cast
    back. *)
Theorem sweep_rc_d_high_refines (params_ : ForwardRayTracingParams Real)
    (theta_o_ phi_o_ : Real) (rc_list lgd_list : list Real) (cutoff : nat) (tol : Real) :
  sweep_rc_d_high params_ theta_o_ phi_o_ rc_list lgd_list cutoff tol =
  sweepHighPrecision_spec params_ theta_o_ phi_o_ rc_list lgd_list cutoff tol.
Proof.
  unfold sweep_rc_d_high, sweepHighPrecision_spec. cbn zeta.
  rewrite !promote_list_map.
  destruct (sweep_rc_d _ _ _ _ _ _ _) as [r|]; [|done].
  cbn. by rewrite get_low_prec_cast_back.
Qed.

End HighPrecisionProperties.

(** ** [sweep_rc_d]: removing duplicates *)

Section DedupProperties.
Context {Real : Type} `{!Numeric Real}.

Lemma first_duplicate_none (tol : Real) (ri : ForwardRayTracingResult Real)
    (rest : list (ForwardRayTracingResult Real)) (j : nat) :
  (∀ rj, rj ∈ rest → is_duplicate tol ri rj = false) →
  first_duplicate tol ri rest j = None.
Proof.
  revert j. induction rest as [|rj rest IH]; intros j Hall; [done|].
  cbn [first_duplicate]. rewrite (Hall rj) by left.
  apply IH. intros r Hr. apply Hall. by right.
Qed.

Lemma duplicated_index_none (tol : Real) (i : nat)
    (results : list (ForwardRayTracingResult Real)) :
  (∀ a b ra rb, a < b → results !! a = Some ra → results !! b = Some rb →
     is_duplicate tol ra rb = false) →
  duplicated_index_from tol i results = [].
Proof.
  revert i. induction results as [|ri rest IH]; intros i Hall; [done|].
  cbn [duplicated_index_from]. rewrite first_duplicate_none.
  - apply IH. intros a b ra rb Hab Ha Hb. apply (Hall (S a) (S b)); [lia|done..].
  - intros rj Hrj. apply list_elem_of_lookup_1 in Hrj as [b Hb].
    apply (Hall 0 (S b)); [lia|done..].
Qed.

(** X17. Roots that are pairwise farther apart than the tolerance all
    survive. *)
Lemma remove_duplicated_distinct (tol : Real)
    (results : list (ForwardRayTracingResult Real)) :
  (∀ a b ra rb, a < b → results !! a = Some ra → results !! b = Some rb →
     is_duplicate tol ra rb = false) →
  remove_duplicated tol results = Some results.
Proof.
  intros Hall. unfold remove_duplicated. by rewrite duplicated_index_none.
Qed.

(** X18. Two roots within the tolerance of each other collapse to the
    first, two roots farther apart both survive. *)
Lemma remove_duplicated_pair (tol : Real) (r1 r2 : ForwardRayTracingResult Real) :
  remove_duplicated tol [r1; r2] =
  Some (if is_duplicate tol r1 r2 then [r1] else [r1; r2]).
Proof.
  unfold remove_duplicated. cbn [duplicated_index_from first_duplicate].
  by destruct (is_duplicate tol r1 r2).
Qed.

End DedupProperties.

(** * Further properties *)

(** ** [sweep_rc_d]: what every return carries *)

Section SweepStages.
Context {Real : Type} `{!Numeric Real, !Oracle Real, !RootSolver Real, !Runtime}.

Lemma std_sort_nil (cmp : nat → nat → bool) : std_sort cmp [] = [].
Proof. apply Permutation_nil_r, std_sort_perm. Qed.

Lemma ranked_no_theta (phi_roots_index : list Point) : ranked [] phi_roots_index = [].
Proof. unfold ranked. cbn [length seq]. by rewrite std_sort_nil. Qed.

(** The three returns of [sweep_rc_d] in one description: the matrices
    are the sampled ones, the candidate lists are the grid points of the
    isolated cells, the matched list is that of the ranked points (none
    without a phi candidate), and [results] is what the closing loops leave
    of the refined roots. *)
Lemma sweep_rc_d_returns (params_ : ForwardRayTracingParams Real) (theta_o_ phi_o_ : Real)
    (rc_list lgd_list : list Real) (cutoff : nat) (tol : Real) (r : SweepResult Real) :
  sweep_rc_d params_ theta_o_ phi_o_ rc_list lgd_list cutoff tol = Some r →
  let sr := sampled params_ theta_o_ (wrap_phi phi_o_) rc_list lgd_list in
  let t_idx := theta_roots_index_of sr (length lgd_list) (length rc_list) in
  let p_idx := phi_roots_index_of sr (length lgd_list) (length rc_list) in
  let closest := if bool_decide (p_idx = []) then [] else ranked t_idx p_idx in
  (Sweep.theta r = Sweep.theta sr ∧ Sweep.phi r = Sweep.phi sr ∧
   Sweep.lambda r = Sweep.lambda sr ∧ Sweep.eta r = Sweep.eta sr ∧
   Sweep.delta_theta r = Sweep.delta_theta sr ∧
   Sweep.delta_phi r = Sweep.delta_phi sr) ∧
  Sweep.theta_roots r = map (grid_point rc_list lgd_list) t_idx ∧
  Sweep.phi_roots r = map (grid_point rc_list lgd_list) p_idx ∧
  Sweep.theta_roots_closest r = map (grid_point rc_list lgd_list) closest ∧
  remove_duplicated tol
    (arrival (omap (refine params_ theta_o_ (wrap_phi phi_o_) tol rc_list lgd_list
                           (Sweep.phi sr))
                   (take (cutoff `min` length closest) closest)))
  = Some (Sweep.results r).
Proof.
  intros Hr sr t_idx p_idx closest.
  unfold sweep_rc_d in Hr. cbn zeta in Hr. fold sr t_idx p_idx in Hr.
  destruct (bool_decide_reflect (p_idx = [])) as [Hp|Hp].
  - assert (Hres : remove_duplicated tol
              (arrival (omap (refine params_ theta_o_ (wrap_phi phi_o_) tol rc_list lgd_list
                                     (Sweep.phi sr))
                             (take (cutoff `min` length closest) closest))) = Some []).
    { subst closest. rewrite take_nil. cbn -[remove_duplicated arrival].
      by rewrite arrival_nil. }
    destruct (bool_decide_reflect (t_idx = [])) as [Ht|Ht]; cbn [andb] in Hr;
      injection Hr as <-; rewrite Hres; subst closest;
      rewrite ?Hp, ?Ht; done.
  - rewrite andb_false_r in Hr.
    destruct (remove_duplicated tol _) as [results|] eqn:Hres in Hr; [|done].
    cbn in Hr. injection Hr as <-. subst closest.
    cbn [Sweep.set_results Sweep.set_theta_roots_closest Sweep.set_phi_roots
         Sweep.set_theta_roots Sweep.theta Sweep.phi Sweep.lambda Sweep.eta
         Sweep.delta_theta Sweep.delta_phi Sweep.theta_roots Sweep.phi_roots
         Sweep.theta_roots_closest Sweep.results] in *.
    by rewrite Hres.
Qed.

End SweepStages.

(** ** [sweep_rc_d]: the loops that remove duplicates *)

Section DedupStages.
Context {Real : Type} `{!Numeric Real}.

(** Erasing never invents or reorders an entry, and takes one entry per
    position erased. *)
Lemma erase_each_sublist {A : Type} (positions : list nat) (v v' : list A) :
  erase_each positions v = Some v' →
  v' `sublist_of` v ∧ length v' + length positions = length v.
Proof.
  revert v. induction positions as [|pos positions IH]; intros v Hv; cbn in Hv.
  - injection Hv as <-. split; [done|cbn; lia].
  - unfold erase in Hv. case_decide as Hpos; [|done]. cbn in Hv.
    apply IH in Hv as [Hsub Hlen]. split.
    + etrans; [exact Hsub|apply sublist_delete].
    + rewrite length_delete in Hlen by (by apply lookup_lt_is_Some_2). cbn. lia.
Qed.

Lemma erase_each_head {A : Type} (positions : list nat) (x : A) (v v' : list A) :
  Forall (λ pos, 0 < pos) positions →
  erase_each positions (x :: v) = Some v' → head v' = Some x.
Proof.
  revert v. induction positions as [|pos positions IH]; intros v Hpos Hv; cbn in Hv.
  - by injection Hv as <-.
  - apply Forall_cons in Hpos as [Hp Hpos]. unfold erase in Hv.
    case_decide; [|done]. cbn in Hv. destruct pos as [|pos]; [lia|].
    cbn in Hv. by eapply IH.
Qed.

(** Positions listed from the largest to the smallest, all different and
    all inside the vector: every erase is defined, and an entry whose
    position is not listed is still there at the end. *)
Lemma erase_each_descending {A : Type} (asc : list nat) (v : list A) :
  StronglySorted lt asc → Forall (λ pos, pos < length v) asc →
  ∃ v', erase_each (rev asc) v = Some v' ∧
        ∀ k x, v !! k = Some x → k ∉ asc → x ∈ v'.
Proof.
  revert v. induction asc as [|m asc IH] using rev_ind; intros v Hsorted Hin.
  - exists v. split; [done|]. intros k x Hk _. by eapply list_elem_of_lookup_2.
  - rewrite rev_unit. cbn [erase_each]. unfold erase.
    apply Forall_app in Hin as [Hin Hm]. rewrite Forall_singleton in Hm.
    rewrite decide_True by exact Hm. cbn.
    assert (Hbelow : ∀ y, y ∈ asc → y < m).
    { intros y Hy. apply (StronglySorted_app_1_elem_of lt asc [m] y m Hsorted Hy).
      left. }
    destruct (IH (delete m v)) as (v' & Hv' & Hkeep).
    + by eapply StronglySorted_app_1_l.
    + apply Forall_forall. intros y Hy. specialize (Hbelow y Hy).
      rewrite length_delete by (by apply lookup_lt_is_Some_2). lia.
    + exists v'. split; [exact Hv'|]. intros k x Hk Hnot.
      rewrite elem_of_app, list_elem_of_singleton in Hnot.
      destruct (decide (k < m)) as [Hlt|Hge].
      * apply (Hkeep k); [by rewrite list_lookup_delete_lt|tauto].
      * destruct k as [|k]; [lia|]. apply (Hkeep k).
        -- rewrite list_lookup_delete_ge by lia. exact Hk.
        -- intros Hk'. specialize (Hbelow k Hk'). lia.
Qed.

Lemma StronglySorted_le_NoDup (l : list nat) :
  StronglySorted le l → NoDup l → StronglySorted lt l.
Proof.
  induction 1 as [|x l Hsorted IH Hall]; intros Hnodup; [constructor|].
  apply NoDup_cons in Hnodup as [Hx Hnodup]. constructor; [by apply IH|].
  apply Forall_forall. intros y Hy.
  rewrite Forall_forall in Hall. specialize (Hall y Hy).
  assert (x ≠ y) by (by intros ->). lia.
Qed.

(** What the inner loop finds is the first later entry within the
    tolerance. *)
Lemma first_duplicate_some (tol : Real) (ri : ForwardRayTracingResult Real)
    (rest : list (ForwardRayTracingResult Real)) (j0 j : nat) :
  first_duplicate tol ri rest j0 = Some j →
  ∃ b rj, j = j0 + b ∧ rest !! b = Some rj ∧ is_duplicate tol ri rj = true ∧
          ∀ b' rj', b' < b → rest !! b' = Some rj' → is_duplicate tol ri rj' = false.
Proof.
  revert j0. induction rest as [|r rest IH]; intros j0 Hj; [done|].
  cbn [first_duplicate] in Hj. destruct (is_duplicate tol ri r) eqn:Hdup.
  - injection Hj as <-. exists 0, r. repeat split; [lia|done..|]. intros b' ? ?. lia.
  - apply IH in Hj as (b & rj & -> & Hb & Hrj & Hfirst).
    exists (S b), rj. repeat split; [lia|done..|].
    intros [|b'] rj' Hlt Hb'; [cbn in Hb'; congruence|].
    apply (Hfirst b'); [lia|done].
Qed.

Lemma duplicated_index_from_sound (tol : Real) (i0 j : nat)
    (results : list (ForwardRayTracingResult Real)) :
  j ∈ duplicated_index_from tol i0 results →
  ∃ a b ra rb, a < b ∧ j = i0 + b ∧ results !! a = Some ra ∧ results !! b = Some rb ∧
               is_duplicate tol ra rb = true.
Proof.
  revert i0. induction results as [|ri rest IH]; intros i0 Hj.
  { by apply elem_of_nil in Hj. }
  cbn [duplicated_index_from] in Hj.
  assert (Htail : j ∈ duplicated_index_from tol (S i0) rest →
            ∃ a b ra rb, a < b ∧ j = i0 + b ∧ (ri :: rest) !! a = Some ra ∧
                         (ri :: rest) !! b = Some rb ∧ is_duplicate tol ra rb = true).
  { intros Hin. apply IH in Hin as (a & b & ra & rb & Hab & -> & Ha & Hb & Hdup).
    exists (S a), (S b), ra, rb. repeat split; [lia|lia|done..]. }
  destruct (first_duplicate tol ri rest (S i0)) as [j1|] eqn:Hfirst; [|by apply Htail].
  apply elem_of_cons in Hj as [->|Hj]; [|by apply Htail].
  apply first_duplicate_some in Hfirst as (b & rj & -> & Hb & Hdup & _).
  exists 0, (S b), ri, rj. repeat split; [lia|lia|done..].
Qed.

End DedupStages.

(** ** The root search: how the pieces compose *)

Section RootSearchMore.
Context {Real : Type} `{!Numeric Real, !Oracle Real, !RootSolver Real, !Runtime}.

(** X1. The target azimuth enters [find_root_period], [find_root] and
    [sweep_rc_d] only through [wrap_phi]: two targets with the same wrapped
    value give the same results. *)
Theorem target_azimuth_through_wrap_phi (params_ : ForwardRayTracingParams Real) (P : Z)
    (theta_o_ phi_o_ phi_o' tol : Real) (rc_list lgd_list : list Real) (cutoff : nat) :
  wrap_phi phi_o_ = wrap_phi phi_o' →
  find_root_period params_ P theta_o_ phi_o_ tol
    = find_root_period params_ P theta_o_ phi_o' tol ∧
  find_root params_ theta_o_ phi_o_ tol = find_root params_ theta_o_ phi_o' tol ∧
  sweep_rc_d params_ theta_o_ phi_o_ rc_list lgd_list cutoff tol
    = sweep_rc_d params_ theta_o_ phi_o' rc_list lgd_list cutoff tol.
Proof.
  intros Hwrap. unfold find_root, sweep_rc_d, find_root_period, find_root_period_solve.
  cbn zeta. by rewrite Hwrap.
Qed.

(** X3. In what [find_root_period] and [find_root] return, [success] holds
    exactly when a root is present, and exactly when no reason is given. *)
Theorem find_root_success_iff_root (params_ : ForwardRayTracingParams Real) (P : Z)
    (theta_o_ phi_o_ tol : Real) :
  let consistent (res : FindRootResult Real) : Prop :=
    (success res = true ↔ is_Some (root res)) ∧
    (success res = true ↔ fail_reason res = ""%string) in
  consistent (find_root_period params_ P theta_o_ phi_o_ tol) ∧
  consistent (find_root params_ theta_o_ phi_o_ tol).
Proof.
  assert (Hgen : ∀ P' phi',
    (success (find_root_period params_ P' theta_o_ phi' tol) = true ↔
       is_Some (root (find_root_period params_ P' theta_o_ phi' tol))) ∧
    (success (find_root_period params_ P' theta_o_ phi' tol) = true ↔
       fail_reason (find_root_period params_ P' theta_o_ phi' tol) = ""%string)).
  { intros P' phi'. unfold find_root_period.
    destruct (find_root_period_solve params_ P' theta_o_ phi') as [[x residual] s].
    case_decide; [|destruct (r_gt (norm residual) tol)]; cbn [success root fail_reason];
      (split; split; intros Hyp; try done;
       try (by destruct Hyp as [? Hyp]); try (by cbn in Hyp); by eexists). }
  cbn zeta. split; [apply Hgen|]. unfold find_root. apply Hgen.
Qed.

(** X4. When [rc_d_to_lambda_q] reads nothing of what it writes and writes
    nothing else, the functor's answer at a point does not depend on the
    point it was called at before: the parameter block it mutates carries no
    history. *)
Theorem RootFunctor_call_no_history (f : RootFunctor) (x y : Vector Real)
    (s : FunctorState Real) :
  (∀ p1 p2, Params.same_inputs p1 p2 → rc_d_to_lambda_q p1 = rc_d_to_lambda_q p2) →
  (∀ p1, Params.same_inputs (rc_d_to_lambda_q p1) p1) →
  RootFunctor_call f x (snd (RootFunctor_call f y s)) = RootFunctor_call f x s.
Proof.
  intros Hreads Hwrites. rewrite RootFunctor_call_state.
  unfold RootFunctor_call. cbn [params].
  by rewrite (at_point_history x y (params s) Hreads Hwrites).
Qed.

End RootSearchMore.

(** ** [sweep_rc_d]: invariants of every result *)

Section SweepMore.
Context {Real : Type} `{!Numeric Real, !Oracle Real, !RootSolver Real, !Runtime}.

Lemma length_omap_le {A B : Type} (f : A → option B) (l : list A) :
  length (omap f l) ≤ length l.
Proof.
  induction l as [|x l IH]; [done|]. cbn. destruct (f x); cbn; lia.
Qed.

Lemma lookup_default_seq {A : Type} (d : A) (l : list A) :
  map (λ k, default d (l !! k)) (seq 0 (length l)) = l.
Proof.
  apply list_eq. intros i. rewrite map_fmap, list_lookup_fmap.
  destruct (decide (i < length l)) as [Hlt|Hge].
  - rewrite lookup_seq_lt by done. cbn.
    destruct (lookup_lt_is_Some_2 l i Hlt) as [x Hx]. by rewrite Hx.
  - rewrite (lookup_ge_None_2 l i) by lia.
    rewrite (lookup_ge_None_2 (seq 0 (length l)) i); [done|]. rewrite length_seq. lia.
Qed.

(** Ranking reorders the matched points and does nothing else. *)
Lemma ranked_Permutation (theta_roots_index phi_roots_index : list Point) :
  ranked theta_roots_index phi_roots_index
  ≡ₚ map (rtree_nearest phi_roots_index) theta_roots_index.
Proof.
  unfold ranked.
  set (closest := map (rtree_nearest phi_roots_index) theta_roots_index).
  set (cmp := λ i1 i2 : nat, PrimFloat.ltb _ _).
  transitivity (map (λ k, default (0, 0) (closest !! k))
                    (seq 0 (length theta_roots_index))).
  - apply Permutation_map, std_sort_perm.
  - replace (length theta_roots_index) with (length closest)
      by (subst closest; by rewrite length_map).
    by rewrite lookup_default_seq.
Qed.

Lemma ranked_length (theta_roots_index phi_roots_index : list Point) :
  length (ranked theta_roots_index phi_roots_index) = length theta_roots_index.
Proof. by rewrite ranked_Permutation, length_map. Qed.

(** The row of an isolated cell is made of an entry of [rc_list] and an
    entry of [lgd_list]: the isolation loop hands out no index outside the
    lists. *)
Lemma grid_point_interior (rc_list lgd_list : list Real) (i j : nat) :
  (i, j) ∈ interior_cells (length lgd_list) (length rc_list) →
  ∃ rc lgd, rc_list !! j = Some rc ∧ lgd_list !! i = Some lgd ∧
            grid_point rc_list lgd_list (i, j) = (rc, lgd).
Proof.
  intros Hin. apply elem_of_interior_cells in Hin as [Hi Hj].
  destruct (lookup_lt_is_Some_2 lgd_list i) as [lgd Hlgd]; [lia|].
  destruct (lookup_lt_is_Some_2 rc_list j) as [rc Hrc]; [lia|].
  exists rc, lgd. split; [done|]. split; [done|].
  unfold grid_point, vec_at. cbn [fst snd]. by rewrite Hlgd, Hrc.
Qed.

Lemma interior_cells_thin (lgd_size rc_size : nat) :
  lgd_size ≤ 1 ∨ rc_size ≤ 1 → interior_cells lgd_size rc_size = [].
Proof.
  intros Hthin. destruct (interior_cells lgd_size rc_size) as [|[i j] cells] eqn:Hcells;
    [done|].
  assert (Hin : (i, j) ∈ interior_cells lgd_size rc_size) by (rewrite Hcells; left).
  apply elem_of_interior_cells in Hin. lia.
Qed.

(** X6. Whatever [sweep_rc_d] returns, each of the six matrices has one row
    per entry of [lgd_list] and one column per entry of [rc_list], and its
    cell [(i, j)] is what the sampling loop stores for [rc_list[j]] and
    [lgd_list[i]]: the later stages never write to a matrix. *)
Theorem sweep_matrices (params_ : ForwardRayTracingParams Real) (theta_o_ phi_o_ : Real)
    (rc_list lgd_list : list Real) (cutoff : nat) (tol : Real) (r : SweepResult Real) :
  sweep_rc_d params_ theta_o_ phi_o_ rc_list lgd_list cutoff tol = Some r →
  let rows := length lgd_list in
  let cols := length rc_list in
  (has_size (Sweep.theta r) rows cols ∧ has_size (Sweep.phi r) rows cols ∧
   has_size (Sweep.lambda r) rows cols ∧ has_size (Sweep.eta r) rows cols ∧
   has_size (Sweep.delta_theta r) rows cols ∧ has_size (Sweep.delta_phi r) rows cols) ∧
  ∀ i j rc lgd, lgd_list !! i = Some lgd → rc_list !! j = Some rc →
    let g := sample_cell params_ theta_o_ (wrap_phi phi_o_) rc lgd in
    coeff (Sweep.theta r) i j = s_theta g ∧ coeff (Sweep.phi r) i j = s_phi g ∧
    coeff (Sweep.lambda r) i j = s_lambda g ∧ coeff (Sweep.eta r) i j = s_eta g ∧
    coeff (Sweep.delta_theta r) i j = s_delta_theta g ∧
    coeff (Sweep.delta_phi r) i j = s_delta_phi g.
Proof.
  intros Hr rows cols.
  destruct (sweep_rc_d_returns _ _ _ _ _ _ _ _ Hr)
    as ((-> & -> & -> & -> & -> & ->) & _).
  unfold sampled. cbn [Sweep.theta Sweep.phi Sweep.lambda Sweep.eta Sweep.delta_theta
                       Sweep.delta_phi].
  split; [repeat split; apply sample_matrix_has_size|].
  intros i j rc lgd Hi Hj.
  by rewrite !(coeff_sample_matrix _ _ _ _ _ _ _ _ _ _ Hi Hj).
Qed.

(** X7. Whatever [sweep_rc_d] returns, [theta_roots] and [phi_roots] hold one
    row per isolated cell, in the order of the index lists, and the row of
    the cell [(i, j)] is [(rc_list[j], lgd_list[i])], both in range. *)
Theorem sweep_candidate_rows (params_ : ForwardRayTracingParams Real) (theta_o_ phi_o_ : Real)
    (rc_list lgd_list : list Real) (cutoff : nat) (tol : Real) (r : SweepResult Real) :
  sweep_rc_d params_ theta_o_ phi_o_ rc_list lgd_list cutoff tol = Some r →
  let sr := sampled params_ theta_o_ (wrap_phi phi_o_) rc_list lgd_list in
  let t_idx := theta_roots_index_of sr (length lgd_list) (length rc_list) in
  let p_idx := phi_roots_index_of sr (length lgd_list) (length rc_list) in
  length (Sweep.theta_roots r) = length t_idx ∧
  length (Sweep.phi_roots r) = length p_idx ∧
  (∀ k i j, t_idx !! k = Some (i, j) →
     ∃ rc lgd, rc_list !! j = Some rc ∧ lgd_list !! i = Some lgd ∧
               Sweep.theta_roots r !! k = Some (rc, lgd)) ∧
  (∀ k i j, p_idx !! k = Some (i, j) →
     ∃ rc lgd, rc_list !! j = Some rc ∧ lgd_list !! i = Some lgd ∧
               Sweep.phi_roots r !! k = Some (rc, lgd)).
Proof.
  intros Hr sr t_idx p_idx.
  destruct (sweep_rc_d_returns _ _ _ _ _ _ _ _ Hr) as (_ & Ht & Hp & _).
  fold sr t_idx p_idx in Ht, Hp. rewrite Ht, Hp, !length_map.
  split; [done|]. split; [done|]. unfold PointVector, Point in *. split.
  - intros k i j Hk.
    destruct (grid_point_interior rc_list lgd_list i j) as (rc & lgd & Hrc & Hlgd & Hrow).
    { apply list_elem_of_lookup_2 in Hk. by apply elem_of_theta_roots_index in Hk as [? _]. }
    exists rc, lgd. split; [done|]. split; [done|].
    by rewrite map_fmap, list_lookup_fmap, Hk, <- Hrow.
  - intros k i j Hk.
    destruct (grid_point_interior rc_list lgd_list i j) as (rc & lgd & Hrc & Hlgd & Hrow).
    { apply list_elem_of_lookup_2 in Hk. by apply elem_of_phi_roots_index in Hk as [? _]. }
    exists rc, lgd. split; [done|]. split; [done|].
    by rewrite map_fmap, list_lookup_fmap, Hk, <- Hrow.
Qed.

(** X8. A grid with at most one row or at most one column (an empty list
    included) has no interior cell: the sweep returns the sampled matrices
    and nothing else. *)
Theorem sweep_of_thin_grid (params_ : ForwardRayTracingParams Real) (theta_o_ phi_o_ : Real)
    (rc_list lgd_list : list Real) (cutoff : nat) (tol : Real) :
  length lgd_list ≤ 1 ∨ length rc_list ≤ 1 →
  let sr := sampled params_ theta_o_ (wrap_phi phi_o_) rc_list lgd_list in
  theta_roots_index_of sr (length lgd_list) (length rc_list) = [] ∧
  phi_roots_index_of sr (length lgd_list) (length rc_list) = [] ∧
  sweep_rc_d params_ theta_o_ phi_o_ rc_list lgd_list cutoff tol = Some sr ∧
  Sweep.theta_roots sr = [] ∧ Sweep.phi_roots sr = [] ∧
  Sweep.theta_roots_closest sr = [] ∧ Sweep.results sr = [].
Proof.
  intros Hthin sr.
  assert (Ht : theta_roots_index_of sr (length lgd_list) (length rc_list) = []).
  { unfold theta_roots_index_of. rewrite interior_cells_thin by done. apply arrival_nil. }
  assert (Hp : phi_roots_index_of sr (length lgd_list) (length rc_list) = []).
  { unfold phi_roots_index_of. rewrite interior_cells_thin by done. apply arrival_nil. }
  split; [exact Ht|]. split; [exact Hp|]. split; [|done].
  unfold sweep_rc_d. cbn zeta. fold sr. by rewrite Ht, Hp.
Qed.

(** X9. When the isolation loop finds a phi candidate and no theta candidate,
    [sweep_rc_d] fills [phi_roots] and goes through pairing, ranking,
    refinement and the removal of duplicates with nothing to work on:
    [theta_roots], [theta_roots_closest] and [results] are empty. *)
Theorem phi_only_sweep (params_ : ForwardRayTracingParams Real) (theta_o_ phi_o_ : Real)
    (rc_list lgd_list : list Real) (cutoff : nat) (tol : Real) :
  let sr := sampled params_ theta_o_ (wrap_phi phi_o_) rc_list lgd_list in
  let p_idx := phi_roots_index_of sr (length lgd_list) (length rc_list) in
  theta_roots_index_of sr (length lgd_list) (length rc_list) = [] →
  p_idx ≠ [] →
  ∃ r, sweep_rc_d params_ theta_o_ phi_o_ rc_list lgd_list cutoff tol = Some r ∧
       Sweep.phi_roots r = map (grid_point rc_list lgd_list) p_idx ∧
       Sweep.phi_roots r ≠ [] ∧
       Sweep.theta_roots r = [] ∧ Sweep.theta_roots_closest r = [] ∧
       Sweep.results r = [].
Proof.
  intros sr p_idx Ht Hp.
  exists (Sweep.set_phi_roots (map (grid_point rc_list lgd_list) p_idx) sr). split.
  - unfold sweep_rc_d. cbn zeta. fold sr p_idx. rewrite Ht.
    rewrite (bool_decide_eq_false_2 _ Hp), andb_false_r.
    rewrite ranked_no_theta. cbn [length]. rewrite take_nil.
    cbn -[remove_duplicated arrival]. rewrite arrival_nil. reflexivity.
  - cbn. split; [done|]. split; [|done].
    destruct p_idx; [done|]. discriminate.
Qed.

(** The refined roots are at most as many as the ranked points taken. *)
Lemma sweep_rc_d_results_length (params_ : ForwardRayTracingParams Real)
    (theta_o_ phi_o_ : Real) (rc_list lgd_list : list Real) (cutoff : nat) (tol : Real)
    (r : SweepResult Real) :
  sweep_rc_d params_ theta_o_ phi_o_ rc_list lgd_list cutoff tol = Some r →
  length (Sweep.results r) ≤ cutoff ∧
  length (Sweep.results r) ≤ length (Sweep.theta_roots r).
Proof.
  intros Hr.
  destruct (sweep_rc_d_returns _ _ _ _ _ _ _ _ Hr) as (_ & Ht & _ & _ & Hres).
  set (sr := sampled params_ theta_o_ (wrap_phi phi_o_) rc_list lgd_list) in *.
  set (t_idx := theta_roots_index_of sr (length lgd_list) (length rc_list)) in *.
  set (p_idx := phi_roots_index_of sr (length lgd_list) (length rc_list)) in *.
  set (closest := if bool_decide (p_idx = []) then [] else ranked t_idx p_idx) in *.
  assert (Hclosest : length closest ≤ length t_idx).
  { subst closest. case_bool_decide; [cbn; lia|by rewrite ranked_length]. }
  unfold remove_duplicated in Hres. apply erase_each_sublist in Hres as [Hsub _].
  apply sublist_length in Hsub. rewrite arrival_perm in Hsub.
  pose proof (length_omap_le
    (refine params_ theta_o_ (wrap_phi phi_o_) tol rc_list lgd_list (Sweep.phi sr))
    (take (cutoff `min` length closest) closest)) as Hle.
  rewrite length_take in Hle. rewrite Ht, length_map. lia.
Qed.

(** X10. Whatever [sweep_rc_d] returns, [results] holds at most [cutoff]
    roots and at most one per theta candidate, and [theta_roots_closest]
    holds one row per theta candidate when there is a phi candidate, none
    otherwise. *)
Theorem sweep_results_bounded (params_ : ForwardRayTracingParams Real) (theta_o_ phi_o_ : Real)
    (rc_list lgd_list : list Real) (cutoff : nat) (tol : Real) (r : SweepResult Real) :
  sweep_rc_d params_ theta_o_ phi_o_ rc_list lgd_list cutoff tol = Some r →
  length (Sweep.results r) ≤ cutoff ∧
  length (Sweep.results r) ≤ length (Sweep.theta_roots r) ∧
  (Sweep.phi_roots r ≠ [] →
     length (Sweep.theta_roots_closest r) = length (Sweep.theta_roots r)) ∧
  (Sweep.phi_roots r = [] → Sweep.theta_roots_closest r = []).
Proof.
  intros Hr.
  destruct (sweep_rc_d_results_length _ _ _ _ _ _ _ _ Hr) as [Hcut Htheta].
  destruct (sweep_rc_d_returns _ _ _ _ _ _ _ _ Hr) as (_ & Ht & Hp & Hc & _).
  set (sr := sampled params_ theta_o_ (wrap_phi phi_o_) rc_list lgd_list) in *.
  set (t_idx := theta_roots_index_of sr (length lgd_list) (length rc_list)) in *.
  set (p_idx := phi_roots_index_of sr (length lgd_list) (length rc_list)) in *.
  split; [exact Hcut|]. split; [exact Htheta|].
  rewrite Ht, Hp, Hc, !length_map. split.
  - intros Hne. case_bool_decide as Hnil.
    + rewrite Hnil in Hne. by destruct Hne.
    + apply ranked_length.
  - intros Hnil. destruct p_idx; [|discriminate Hnil].
    by rewrite bool_decide_eq_true_2.
Qed.

(** X11. With a phi candidate, [theta_roots_closest] is a reordering of the
    rows of the points the r-tree answered with, one per theta candidate:
    the ranking drops and repeats nothing. *)
Theorem ranking_only_reorders (params_ : ForwardRayTracingParams Real) (theta_o_ phi_o_ : Real)
    (rc_list lgd_list : list Real) (cutoff : nat) (tol : Real) (r : SweepResult Real) :
  sweep_rc_d params_ theta_o_ phi_o_ rc_list lgd_list cutoff tol = Some r →
  let sr := sampled params_ theta_o_ (wrap_phi phi_o_) rc_list lgd_list in
  let t_idx := theta_roots_index_of sr (length lgd_list) (length rc_list) in
  let p_idx := phi_roots_index_of sr (length lgd_list) (length rc_list) in
  p_idx ≠ [] →
  Sweep.theta_roots_closest r
  ≡ₚ map (λ p, grid_point rc_list lgd_list (rtree_nearest p_idx p)) t_idx.
Proof.
  intros Hr sr t_idx p_idx Hp.
  destruct (sweep_rc_d_returns _ _ _ _ _ _ _ _ Hr) as (_ & _ & _ & -> & _).
  fold sr t_idx p_idx. rewrite (bool_decide_eq_false_2 _ Hp).
  rewrite ranked_Permutation. by rewrite map_map.
Qed.

(** X12. If the r-tree answers a query with one of the points it holds, every
    row of [theta_roots_closest] is a row of [phi_roots]: a theta candidate
    is only ever matched with a phi candidate. *)
Theorem matched_rows_are_phi_rows (params_ : ForwardRayTracingParams Real)
    (theta_o_ phi_o_ : Real) (rc_list lgd_list : list Real) (cutoff : nat) (tol : Real)
    (r : SweepResult Real) (row : Real * Real) :
  (∀ pts p, pts ≠ [] → rtree_nearest pts p ∈ pts) →
  sweep_rc_d params_ theta_o_ phi_o_ rc_list lgd_list cutoff tol = Some r →
  row ∈ Sweep.theta_roots_closest r → row ∈ Sweep.phi_roots r.
Proof.
  intros Hrtree Hr Hrow.
  destruct (sweep_rc_d_returns _ _ _ _ _ _ _ _ Hr) as (_ & _ & Hp & Hc & _).
  rewrite Hc in Hrow. rewrite Hp. unfold PointVector in *.
  rewrite map_fmap in Hrow. rewrite map_fmap.
  apply list_elem_of_fmap in Hrow as (p & -> & Hin). apply list_elem_of_fmap_2.
  case_bool_decide as Hnil; [by apply elem_of_nil in Hin|].
  rewrite ranked_Permutation, map_fmap in Hin.
  apply list_elem_of_fmap in Hin as (q & -> & _). by apply Hrtree.
Qed.

(** X13. If the r-tree answers a query with one of the points it holds,
    every entry of [results] comes from one ranked point: a phi candidate
    cell [(row, col)] whose grid point [(rc_list[col], lgd_list[row])] is a
    row of [theta_roots_closest].  It is the root of the search that
    [find_root_period] ran from that grid point with the period read off
    [phi] at the cell: at the point [broyden_df] ended on the Oracle reports
    NORMAL, the norm of the functor's value there does not exceed [tol], and
    the entry is the Oracle's result there with that point as its [rc] and
    [log_abs_d]. *)
Theorem sweep_results_are_refined_roots (params_ : ForwardRayTracingParams Real)
    (theta_o_ phi_o_ : Real) (rc_list lgd_list : list Real) (cutoff : nat) (tol : Real)
    (r : SweepResult Real) (rho : ForwardRayTracingResult Real) :
  (∀ pts p, pts ≠ [] → rtree_nearest pts p ∈ pts) →
  sweep_rc_d params_ theta_o_ phi_o_ rc_list lgd_list cutoff tol = Some r →
  rho ∈ Sweep.results r →
  ∃ row col rc lgd,
    (row, col) ∈ phi_roots_index_of
                   (sampled params_ theta_o_ (wrap_phi phi_o_) rc_list lgd_list)
                   (length lgd_list) (length rc_list) ∧
    (rc, lgd) ∈ Sweep.theta_roots_closest r ∧
    rc_list !! col = Some rc ∧ lgd_list !! row = Some lgd ∧
    let start := at_point (rc, lgd) params_ in
    let P := MY_FLOOR_convert (coeff (Sweep.phi r) row col ⊘ two_pi) in
    let f := make_root_functor P theta_o_ (wrap_phi (wrap_phi phi_o_)) in
    let xs := broyden_df (RootFunctor_call f) (Params.rc start, Params.log_abs_d start)
                {| params := start; ray_tracing := get_from_cache |} in
    let x := fst xs in
    let p := at_point x (params (snd xs)) in
    find_root_period start P theta_o_ (wrap_phi phi_o_) tol
      = {| success := true; fail_reason := ""; root := Some rho |} ∧
    Ray.ray_status (calc_ray p) = NORMAL ∧
    r_gt (norm (fst (RootFunctor_call f x (snd xs)))) tol = false ∧
    rho = Result.set_root (fst x) (snd x) (Params.d_sign p) (to_result (calc_ray p)) ∧
    Result.rc rho = fst x ∧ Result.log_abs_d rho = snd x.
Proof.
  intros Hrtree Hr Hrho.
  destruct (sweep_rc_d_returns _ _ _ _ _ _ _ _ Hr) as ((_ & Hphi & _) & _ & _ & Hc & Hres).
  set (sr := sampled params_ theta_o_ (wrap_phi phi_o_) rc_list lgd_list) in *.
  set (t_idx := theta_roots_index_of sr (length lgd_list) (length rc_list)) in *.
  set (p_idx := phi_roots_index_of sr (length lgd_list) (length rc_list)) in *.
  unfold remove_duplicated in Hres. apply erase_each_sublist in Hres as [Hsub _].
  apply (elem_of_sublist _ _ _ Hrho) in Hsub. clear Hrho. rename Hsub into Hrho.
  rewrite arrival_perm in Hrho.
  apply list_elem_of_omap in Hrho as ([row col] & Hin & Hrefine).
  apply elem_of_take in Hin as (k & Hin & _). apply list_elem_of_lookup_2 in Hin.
  destruct (decide (p_idx = [])) as [Hnil|Hnil].
  { rewrite (bool_decide_eq_true_2 _ Hnil) in Hin. by apply elem_of_nil in Hin. }
  rewrite (bool_decide_eq_false_2 _ Hnil) in Hin, Hc.
  assert (Hp : (row, col) ∈ p_idx).
  { pose proof Hin as Hin'. rewrite ranked_Permutation, map_fmap in Hin'.
    apply list_elem_of_fmap in Hin' as (q & Heq & _). rewrite Heq. by apply Hrtree. }
  pose proof Hp as Hcell. apply elem_of_phi_roots_index in Hcell as [Hcell _].
  destruct (grid_point_interior rc_list lgd_list row col Hcell)
    as (rc & lgd & Hrc & Hlgd & Hpoint).
  exists row, col, rc, lgd. split; [exact Hp|]. split.
  { rewrite Hc. unfold PointVector. rewrite map_fmap. apply list_elem_of_fmap.
    exists (row, col). by split. }
  split; [exact Hrc|]. split; [exact Hlgd|]. cbn zeta. rewrite Hphi.
  unfold refine, vec_at in Hrefine. rewrite Hrc, Hlgd in Hrefine. cbn [default] in Hrefine.
  set (start := at_point (rc, lgd) params_) in *.
  set (P := MY_FLOOR_convert _) in *.
  rewrite find_root_period_eq in Hrefine. rewrite find_root_period_eq.
  cbn zeta in Hrefine. cbn zeta.
  set (f := make_root_functor P theta_o_ (wrap_phi (wrap_phi phi_o_))) in *.
  set (xs := broyden_df _ _ _) in *.
  case_decide as Hst; [done|].
  destruct (r_gt (norm (fst (RootFunctor_call f (fst xs) (snd xs)))) tol); [done|].
  cbn [success root] in Hrefine. injection Hrefine as <-.
  split; [done|]. split; [|done].
  by destruct (decide (Ray.ray_status
                         (calc_ray (at_point (fst xs) (params (snd xs)))) = NORMAL)).
Qed.

End SweepMore.

(** ** Removing duplicates: what the loops guarantee *)

Section DedupMore.
Context {Real : Type} `{!Numeric Real}.

Lemma elem_of_sorted_positions (d : list nat) (x : nat) :
  x ∈ rev (merge_sort le d) ↔ x ∈ d.
Proof. by rewrite <- Permutation_rev, merge_sort_Permutation. Qed.

(** X14. An index is pushed to [duplicated_index] only for an entry that is
    within the tolerance, in both coordinates, of an entry before it. *)
Theorem duplicated_index_sound (tol : Real) (results : list (ForwardRayTracingResult Real))
    (j : nat) :
  j ∈ duplicated_index_from tol 0 results →
  ∃ i ri rj, i < j ∧ results !! i = Some ri ∧ results !! j = Some rj ∧
             is_duplicate tol ri rj = true.
Proof.
  intros Hj. apply duplicated_index_from_sound in Hj
    as (a & b & ra & rb & Hab & -> & Ha & Hb & Hdup).
  exists a, ra, rb. by repeat split.
Qed.

(** X15. When the closing loops are defined, what they leave is the input with
    exactly as many entries taken out as indices were pushed, the survivors
    in their old order, and the first root is always among them. *)
Theorem remove_duplicated_keeps_order (tol : Real)
    (results results' : list (ForwardRayTracingResult Real)) :
  remove_duplicated tol results = Some results' →
  results' `sublist_of` results ∧
  length results' + length (duplicated_index_from tol 0 results) = length results ∧
  head results' = head results.
Proof.
  unfold remove_duplicated. intros Hres.
  destruct (erase_each_sublist _ _ _ Hres) as [Hsub Hlen].
  rewrite length_rev, (Permutation_length (merge_sort_Permutation _ _)) in Hlen.
  split; [exact Hsub|]. split; [exact Hlen|].
  destruct results as [|r0 results].
  - by apply sublist_nil_r in Hsub as ->.
  - eapply erase_each_head; [|exact Hres].
    apply Forall_forall. intros pos Hpos. apply (proj1 (elem_of_sorted_positions _ _)) in Hpos.
    apply duplicated_index_from_sound in Hpos as (a & b & _ & _ & Hab & -> & _). lia.
Qed.

(** X16. When no index is pushed twice, every erase is in range, and every
    entry whose index was not pushed survives. *)
Theorem remove_duplicated_defined (tol : Real)
    (results : list (ForwardRayTracingResult Real)) :
  NoDup (duplicated_index_from tol 0 results) →
  ∃ results', remove_duplicated tol results = Some results' ∧
    ∀ k x, results !! k = Some x → k ∉ duplicated_index_from tol 0 results →
           x ∈ results'.
Proof.
  intros Hnodup. unfold remove_duplicated.
  set (d := duplicated_index_from tol 0 results) in *.
  destruct (erase_each_descending (merge_sort le d) results) as (v' & Hv' & Hkeep).
  - apply StronglySorted_le_NoDup.
    + apply StronglySorted_merge_sort; apply _.
    + by rewrite merge_sort_Permutation.
  - apply Forall_forall. intros pos Hpos. rewrite merge_sort_Permutation in Hpos.
    apply duplicated_index_from_sound in Hpos as (a & b & _ & rb & _ & -> & _ & Hb & _).
    by eapply lookup_lt_Some.
  - exists v'. split; [exact Hv'|]. intros k x Hk Hnot. apply (Hkeep k x Hk).
    by rewrite merge_sort_Permutation.
Qed.

End DedupMore.

(** ** The high-precision path: shape of the result *)

Section HighPrecisionMore.
Context {Real HReal : Type}.
Context `{!Numeric HReal, !Oracle HReal, !RootSolver HReal, !Runtime}.
Context `{!HigherPrecision Real HReal}.

Lemma cast_matrix_has_size (m : Matrix HReal) (rows cols : nat) :
  has_size m rows cols → has_size (cast_matrix m) rows cols.
Proof.
  unfold has_size, cast_matrix. intros [Hrows Hcols]. split; [by rewrite length_map|].
  apply Forall_forall. intros row Hrow. rewrite map_fmap in Hrow.
  apply list_elem_of_fmap in Hrow as (row' & -> & Hrow').
  rewrite length_map. rewrite Forall_forall in Hcols. by apply Hcols.
Qed.

(** X19. What [sweep_rc_d_high] returns has the shape of a sweep over the lists
    it was given at working precision: six matrices with one row per entry
    of [lgd_list] and one column per entry of [rc_list], at most [cutoff]
    refined roots, and as many rows in each point list as the sweep at the
    higher precision found. *)
Theorem sweep_rc_d_high_shape (params_ : ForwardRayTracingParams Real)
    (theta_o_ phi_o_ : Real) (rc_list lgd_list : list Real) (cutoff : nat) (tol : Real)
    (r : SweepResult Real) :
  sweep_rc_d_high params_ theta_o_ phi_o_ rc_list lgd_list cutoff tol = Some r →
  let rows := length lgd_list in
  let cols := length rc_list in
  (has_size (Sweep.theta r) rows cols ∧ has_size (Sweep.phi r) rows cols ∧
   has_size (Sweep.lambda r) rows cols ∧ has_size (Sweep.eta r) rows cols ∧
   has_size (Sweep.delta_theta r) rows cols ∧ has_size (Sweep.delta_phi r) rows cols) ∧
  length (Sweep.results r) ≤ cutoff ∧
  length (Sweep.results r) ≤ length (Sweep.theta_roots r).
Proof.
  unfold sweep_rc_d_high. cbn zeta. rewrite !promote_list_map.
  destruct (sweep_rc_d _ _ _ _ _ _ _) as [rh|] eqn:Hrh; [|done].
  cbn. intros Hr. injection Hr as <-.
  destruct (sweep_rc_d_returns _ _ _ _ _ _ _ _ Hrh)
    as ((Ht & Hp & Hl & He & Hdt & Hdp) & _).
  destruct (sweep_rc_d_results_length _ _ _ _ _ _ _ _ Hrh) as [Hcut Htheta].
  unfold get_low_prec.
  cbn [Sweep.theta Sweep.phi Sweep.lambda Sweep.eta Sweep.delta_theta Sweep.delta_phi
       Sweep.results Sweep.theta_roots].
  rewrite foldl_push_back. cbn [app]. unfold cast_points. rewrite !length_map.
  split; [|done].
  rewrite Ht, Hp, Hl, He, Hdt, Hdp. unfold sampled.
  cbn [Sweep.theta Sweep.phi Sweep.lambda Sweep.eta Sweep.delta_theta Sweep.delta_phi].
  rewrite <- (length_map promote lgd_list), <- (length_map promote rc_list).
  repeat match goal with |- _ ∧ _ => split end;
    apply cast_matrix_has_size, sample_matrix_has_size.
Qed.

End HighPrecisionMore.

(** ** Root isolation: each cell is looked at once *)

Section CandidateLists.
Context {Real : Type} `{!Numeric Real, !Runtime}.

Lemma NoDup_interior_cells (lgd_size rc_size : nat) :
  NoDup (interior_cells lgd_size rc_size).
Proof.
  unfold interior_cells.
  assert (Hgen : ∀ rows cols : list nat, NoDup rows → NoDup cols →
            NoDup (flat_map (λ i, map (λ j, (i, j)) cols) rows)).
  { intros rows cols Hrows Hcols. induction Hrows as [|i rows Hi Hrows IH]; cbn.
    { constructor. }
    apply NoDup_app. split; [|split; [|exact IH]].
    - rewrite map_fmap. apply NoDup_fmap_2; [|done]. by intros j j' [= ->].
    - intros [i' j'] Hin Hin'. rewrite map_fmap in Hin.
      apply list_elem_of_fmap in Hin as (j & [= -> ->] & _).
      apply list_elem_of_In, in_flat_map in Hin' as (i' & Hi' & Hin').
      apply in_map_iff in Hin' as (j'' & [= -> ->] & _).
      by apply list_elem_of_In in Hi'. }
  apply Hgen; apply NoDup_seq.
Qed.

Lemma length_interior_cells (lgd_size rc_size : nat) :
  length (interior_cells lgd_size rc_size) = (lgd_size - 1) * (rc_size - 1).
Proof.
  unfold interior_cells.
  assert (Hgen : ∀ rows cols : list nat,
            length (flat_map (λ i, map (λ j, (i, j)) cols) rows)
            = length rows * length cols).
  { intros rows cols. induction rows as [|i rows IH]; [reflexivity|].
    cbn [flat_map length]. rewrite length_app, length_map, IH. lia. }
  by rewrite Hgen, !length_seq.
Qed.

(** X20. The isolation loop lists no cell twice, whatever the order in which
    the workers push: [theta_roots_index] and [phi_roots_index] have no
    repeated entry, and neither is longer than the number of interior cells,
    [(lgd_size - 1) * (rc_size - 1)]. *)
Theorem candidates_listed_once (s : SweepResult Real) (lgd_size rc_size : nat) :
  NoDup (theta_roots_index_of s lgd_size rc_size) ∧
  NoDup (phi_roots_index_of s lgd_size rc_size) ∧
  length (theta_roots_index_of s lgd_size rc_size) ≤ (lgd_size - 1) * (rc_size - 1) ∧
  length (phi_roots_index_of s lgd_size rc_size) ≤ (lgd_size - 1) * (rc_size - 1).
Proof.
  unfold theta_roots_index_of, phi_roots_index_of.
  rewrite !arrival_perm, <- length_interior_cells.
  split; [apply NoDup_ListNoDup, List.NoDup_filter, NoDup_ListNoDup, NoDup_interior_cells|].
  split; [apply NoDup_ListNoDup, List.NoDup_filter, NoDup_ListNoDup, NoDup_interior_cells|].
  split; apply List.filter_length_le.
Qed.

End CandidateLists.

(** * Closed examples on binary64 *)

Import Synthetic.

(** The membership cases of a list given in full. *)
Ltac list_cases H :=
  repeat (rewrite elem_of_cons in H; destruct H as [->|H]);
  try (by apply elem_of_nil in H).

(** [residual_components] on the synthetic Oracle, at the point [(2, 3)]
    and for the search with period 1 towards [(1, 0.5)]. *)
Lemma residual_components_witness :
  let s := {| params := params0; ray_tracing := get_from_cache |} in
  let x := (2, 3)%float in
  Ray.ray_status (calc_ray (at_point x (params s))) = NORMAL ∧
  Ray.ray_status (ray_tracing (snd (find_root_period_solve params0 1 1%float 0.5%float)))
    = NORMAL ∧
  fst (RootFunctor_call (RootFunctor_period 1 1%float 0.5%float) x s)
    = (1, 3 - 0.5 - 1 * Float64.two_pi)%float ∧
  fst (RootFunctor_call (RootFunctor_any 1%float 0.5%float) x s)
    = (1, Float64.sin ((3 - 0.5) * 0.5))%float ∧
  snd (snd (fst (find_root_period_solve params0 1 1%float 0.5%float)))
    = (0.5 + 1 * Float64.two_pi - 0.5 - 1 * Float64.two_pi)%float.
Proof.
  intros s x.
  assert (Hx : Ray.ray_status (calc_ray (at_point x (params s))) = NORMAL)
    by reflexivity.
  pose proof (residual_components (RootFunctor_period 1 1%float 0.5%float) x s
                params0 1 1%float 0.5%float) as Hperiod.
  pose proof (residual_components (RootFunctor_any 1%float 0.5%float) x s
                params0 1 1%float 0.5%float) as Hany.
  cbv zeta in Hperiod, Hany.
  destruct Hperiod as (E1 & _ & _ & Esolve & E2). destruct Hany as (E3 & _).
  split; [exact Hx|].
  split; [rewrite Esolve; vm_compute; reflexivity|].
  split; [rewrite (E1 Hx); vm_compute; reflexivity|].
  split; [rewrite (E3 Hx); vm_compute; reflexivity|].
  rewrite Esolve. cbn [fst snd]. rewrite E2; vm_compute; reflexivity.
Defined.

(** C2 as stated fails for [find_root_period] called with the period
    [INT_MAX]: the search succeeds, and the second component of the residual
    it measured is the sine form, not [phi_f - phi_o - INT_MAX * two_pi]. *)
Lemma residual_at_INT_MAX :
  let solved := find_root_period_solve params0 INT_MAX 1%float 1%float in
  let final := ray_tracing (snd solved) in
  success (find_root_period params0 INT_MAX 1%float 1%float 0x1p-10%float) = true ∧
  Ray.ray_status final = NORMAL ∧
  snd (snd (fst solved)) = Float64.sin ((Ray.phi_f final - wrap_phi 1) * 0.5)%float ∧
  snd (snd (fst solved)) ≠ (Ray.phi_f final ⊖ wrap_phi 1%float ⊖ r_of_int INT_MAX ⊗ two_pi).
Proof.
  cbv zeta. split; [vm_compute; reflexivity|]. split; [vm_compute; reflexivity|].
  split; [vm_compute; reflexivity|].
  intros E. apply (f_equal (λ v, PrimFloat.eqb v 0)) in E.
  vm_compute in E. discriminate E.
Defined.

(** [root_isolation] at the cell [(1, 1)] of a 3 by 3 grid: a theta
    candidate, not a phi candidate. *)
Lemma root_isolation_witness :
  let grid := sampled params0 1%float 1%float [0; 2; 4]%float [2; 3; 0.5]%float in
  1 ≤ 1 < 3 ∧ (1, 1) ∈ theta_roots_index_of grid 3 3 ∧
  (1, 1) ∉ phi_roots_index_of grid 3 3.
Proof.
  intros grid. assert (H1 : 1 ≤ 1 < 3) by lia.
  destruct (root_isolation grid 3 3 1 1 H1 H1) as (Htheta & Hphi & _ & _).
  split; [exact H1|]. split.
  - apply Htheta. repeat split; try reflexivity.
    left. vm_compute. intros E. discriminate E.
  - intros Hin. apply Hphi in Hin.
    destruct Hin as (_ & _ & _ & _ & _ & _ & _ & _ & [Hle|Hle]);
      vm_compute in Hle; exact (Hle eq_refl).
Defined.

(** [find_root_result] on a confined start, on a tolerance no residual
    can meet, and on a search that converges. *)
Lemma find_root_result_witness :
  fail_reason (find_root_period (Params.set_rc (-1)%float params0) 0 1%float 1%float
                                0x1p-10%float)
    = "ray status: CONFINED"%string ∧
  fail_reason (find_root_period params0 0 1%float 1%float (-1)%float)
    = "residual > threshold: <double> > <double>"%string ∧
  ∃ r, root (find_root params0 1%float 1%float 0x1p-10%float) = Some r ∧
       Result.rc r = 1%float ∧ Result.log_abs_d r = 1%float.
Proof.
  split; [|split].
  - pose proof (find_root_result (Params.set_rc (-1)%float params0) 0 1%float 1%float
                                 0x1p-10%float) as [Hperiod _].
    cbv zeta in Hperiod. destruct Hperiod as (Hinvalid & _).
    destruct Hinvalid as (_ & _ & ->); [vm_compute; intros E; discriminate E|].
    vm_compute. reflexivity.
  - pose proof (find_root_result params0 0 1%float 1%float (-1)%float) as [Hperiod _].
    cbv zeta in Hperiod. destruct Hperiod as (_ & Hfar & _).
    destruct Hfar as (_ & _ & ->); [vm_compute; reflexivity..|].
    vm_compute. reflexivity.
  - pose proof (find_root_result params0 0 1%float 1%float 0x1p-10%float) as [_ Hany].
    cbv zeta in Hany. destruct Hany as (_ & _ & Hnear).
    destruct Hnear as (_ & _ & _ & r & Hr & Hrc & Hlgd); [vm_compute; reflexivity..|].
    exists r. split; [exact Hr|].
    split; [rewrite Hrc|rewrite Hlgd]; vm_compute; reflexivity.
Defined.

(** [invalid_ray_is_NaN] at a point with negative [rc]. *)
Lemma invalid_ray_is_NaN_witness :
  let s := {| params := params0; ray_tracing := get_from_cache |} in
  let sr := sampled params0 1%float 0.5%float [-1; 2]%float [0.5]%float in
  Ray.ray_status (calc_ray (at_point (-1, 3)%float (params s))) ≠ NORMAL ∧
  Ray.ray_status (calc_ray (at_point (-1, 0.5)%float params0)) ≠ NORMAL ∧
  fst (RootFunctor_call (RootFunctor_any 1%float 0.5%float) (-1, 3)%float s)
    = (PrimFloat.nan, PrimFloat.nan) ∧
  Sweep.theta sr !! 0 ≫= (λ row, row !! 0) = Some PrimFloat.nan ∧
  Sweep.eta sr !! 0 ≫= (λ row, row !! 0) = Some PrimFloat.nan.
Proof.
  intros s sr.
  assert (Hx : Ray.ray_status (calc_ray (at_point (-1, 3)%float (params s))) ≠ NORMAL)
    by (vm_compute; intros E; discriminate E).
  assert (Hcell : Ray.ray_status (calc_ray (at_point (-1, 0.5)%float params0)) ≠ NORMAL)
    by (vm_compute; intros E; discriminate E).
  split; [exact Hx|]. split; [exact Hcell|].
  destruct (invalid_ray_is_NaN (RootFunctor_any 1%float 0.5%float) (-1, 3)%float s
              params0 1%float 0.5%float [-1; 2]%float [0.5]%float 0 0
              (-1)%float 0.5%float Hx eq_refl eq_refl Hcell)
    as (Hres & _ & Htheta & _ & _ & _ & _ & Heta).
  split; [exact Hres|]. split; [exact Htheta|exact Heta].
Defined.

(** [empty_sweep] on a grid without sign changes and on a grid that is
    confined everywhere. *)
Lemma empty_sweep_witness :
  Sweep.results <$> sweep_rc_d params0 1%float 1%float [2; 4]%float [2; 3]%float
                               10 0x1p-10%float = Some [] ∧
  (∀ rc lgd, rc ∈ [-1; -2]%float → lgd ∈ [2; 3]%float →
     Ray.ray_status (calc_ray (at_point (rc, lgd) params0)) = CONFINED) ∧
  Sweep.theta <$> sweep_rc_d params0 1%float 1%float [-1; -2]%float [2; 3]%float
                             10 0x1p-10%float
    = Some [[PrimFloat.nan; PrimFloat.nan]; [PrimFloat.nan; PrimFloat.nan]].
Proof.
  assert (Hconf : ∀ rc lgd, rc ∈ [-1; -2]%float → lgd ∈ [2; 3]%float →
            Ray.ray_status (calc_ray (at_point (rc, lgd) params0)) = CONFINED).
  { intros rc lgd Hrc Hlgd. list_cases Hrc; list_cases Hlgd; reflexivity. }
  destruct (empty_sweep params0 1%float 1%float [2; 4]%float [2; 3]%float
              10 0x1p-10%float) as [Hnone _].
  destruct (empty_sweep params0 1%float 1%float [-1; -2]%float [2; 3]%float
              10 0x1p-10%float) as [_ Hall].
  cbv zeta in Hnone, Hall. split; [|split; [exact Hconf|]].
  - destruct Hnone as (-> & _); [vm_compute; reflexivity..|]. reflexivity.
  - destruct (Hall Hconf) as (-> & _). vm_compute. reflexivity.
Defined.

(** [theta_only_sweep] on a grid where only [delta_theta] changes sign. *)
Lemma theta_only_sweep_witness :
  ∃ r, sweep_rc_d params0 1%float 1%float [0; 2; 4]%float [2; 3]%float 10 0x1p-10%float
         = Some r ∧
       Sweep.theta_roots r = [(2, 3)%float] ∧
       Sweep.phi_roots r = [] ∧ Sweep.theta_roots_closest r = [] ∧ Sweep.results r = [].
Proof.
  destruct (theta_only_sweep params0 1%float 1%float [0; 2; 4]%float [2; 3]%float
              10 0x1p-10%float)
    as (r & Hr & Hlen & Hrows & Hphi & Hclosest & Hresults & _).
  - vm_compute. intros E. discriminate E.
  - vm_compute. reflexivity.
  - exists r. split; [exact Hr|]. split; [|by repeat split].
    destruct (Hrows 0 1 1) as (rc & lgd & Hrc & Hlgd & Hrow);
      [vm_compute; reflexivity|].
    injection Hrc as <-. injection Hlgd as <-.
    destruct (Sweep.theta_roots r) as [|row [|row' rows]];
      [discriminate Hrow| |discriminate Hlen].
    injection Hrow as ->. reflexivity.
Defined.

(** C1 fails on the code.  With tolerance [2^-10], the refined roots at
    [rc = 0], [2^-11] and [-2^-11] (same [log_abs_d]) lose only the second:
    the inner loop stops at the first duplicate of the first root, so the
    third one, within the tolerance of the first, is left in.  The same
    happens to a whole sweep over four columns. *)
Theorem dedup_keeps_duplicates :
  let tol := 0x1p-10%float in
  let r0 := root_at 0 0.25 in
  let r1 := root_at 0x1p-11 0.25 in
  let r2 := root_at (-0x1p-11) 0.25 in
  is_duplicate tol r0 r1 = true ∧ is_duplicate tol r0 r2 = true ∧
  is_duplicate tol r1 r2 = false ∧
  remove_duplicated tol [r0; r1; r2] = Some [r0; r2] ∧
  Sweep.results <$>
    sweep_rc_d (Oracle0 := everywhere) params0 1%float 1%float
               [9; 0x1p-11; 0; -0x1p-11]%float [5; 0.25]%float 10 tol
    = Some [r0; r2].
Proof. vm_compute. repeat split; reflexivity. Qed.

(** The same defect, seen from the other side: an index pushed twice to
    [duplicated_index] is erased twice, which takes an unrelated root with
    it, or erases past the end. *)
Lemma dedup_erases_an_index_twice :
  let tol := 0x1p-10%float in
  let r0 := root_at 0x1p-11 0.25 in
  let r1 := root_at (-0x1p-11) 0.25 in
  let r2 := root_at 0 0.25 in
  let far := root_at 7 7 in
  duplicated_index_from tol 0 [r0; r1; r2; far] = [2; 2] ∧
  remove_duplicated tol [r0; r1; r2; far] = Some [r0; r1] ∧
  remove_duplicated tol [r0; r1; r2] = None.
Proof. vm_compute. repeat split; reflexivity. Qed.

(** C8 fails on the code at binary64.  For [phi = -2^-70] the quotient
    [phi / two_pi] has floor [-1], and [phi + two_pi] rounds to [two_pi]:
    [wrap_phi] leaves [two_pi], which is not below [two_pi], and a second
    [wrap_phi] turns it into [0]. *)
Theorem wrap_phi_reaches_two_pi :
  let phi := (-0x1p-70)%float in
  MY_FLOOR_convert (phi ⊘ two_pi) = (-1)%Z ∧
  wrap_phi phi = Float64.two_pi ∧
  r_lt (wrap_phi phi) two_pi = false ∧
  wrap_phi (wrap_phi phi) = 0%float ∧
  wrap_phi (wrap_phi phi) ≠ wrap_phi phi.
Proof.
  cbv zeta. repeat split; try (vm_compute; reflexivity).
  intros E. apply (f_equal (λ v, PrimFloat.eqb v 0)) in E.
  vm_compute in E. discriminate E.
Qed.

(** Where [wrap_phi] does what its comment says: angles already in range
    are left alone, and a few turns are taken off exactly. *)
Lemma wrap_phi_examples :
  wrap_phi 1%float = 1%float ∧
  wrap_phi 0%float = 0%float ∧
  wrap_phi Float64.two_pi = 0%float ∧
  wrap_phi (1 + 2 * Float64.two_pi)%float = (1 + 2 * Float64.two_pi - Float64.two_pi * 2)%float ∧
  r_lt (wrap_phi (-1)%float) two_pi = true ∧ r_le 0%float (wrap_phi (-1)%float) = true.
Proof. vm_compute. repeat split; reflexivity. Qed.

(** [calc_ray_batch] under both runtimes. *)
Lemma calc_ray_batch_two_workers :
  let params_list := [params0; Params.set_rc 3%float params0; Params.set_rc (-3)%float params0] in
  calc_ray_batch (H := two_workers) params_list = map Utils_calc_ray params_list ∧
  calc_ray_batch (H := one_worker) params_list = map Utils_calc_ray params_list.
Proof. vm_compute. split; reflexivity. Qed.

(** * Closed examples for the further properties *)

(** The synthetic transform reads nothing of what it writes and writes
    nothing else; the scan answers with one of its points. *)
Lemma synthetic_transform_reads (p1 p2 : ForwardRayTracingParams float) :
  Params.same_inputs p1 p2 → rc_d_to_lambda_q p1 = rc_d_to_lambda_q p2.
Proof.
  destruct p1, p2. unfold Params.same_inputs. cbn.
  intros (-> & -> & -> & -> & -> & -> & -> & -> & -> & ->). reflexivity.
Defined.

Lemma synthetic_transform_writes (p1 : ForwardRayTracingParams float) :
  Params.same_inputs (rc_d_to_lambda_q p1) p1.
Proof. destruct p1. unfold Params.same_inputs. cbn. repeat split. Defined.

Lemma scan_nearest_elem (pts : list Point) (p : Point) :
  pts ≠ [] → rtree_nearest pts p ∈ pts.
Proof.
  intros Hne. cbn. induction pts as [|q pts IH]; [done|].
  destruct pts as [|q' pts]; [left|].
  cbn [scan_nearest]. destruct (_ <=? _)%Z; [left|].
  right. by apply IH.
Defined.

(** A sweep that succeeds, with its result named. *)
Ltac sweep_some r Hr :=
  match goal with
  | |- ∃ _, ?s = Some _ ∧ _ =>
      destruct s as [r|] eqn:Hr;
      [exists r; split; [reflexivity|] | vm_compute in Hr; discriminate Hr]
  end.

(** [target_azimuth_through_wrap_phi] for the targets [7.5] and
    [7.5 - two_pi]. *)
Lemma target_azimuth_through_wrap_phi_witness :
  wrap_phi 7.5%float = wrap_phi (7.5 - Float64.two_pi)%float ∧
  find_root params0 1%float 7.5%float 0x1p-10%float
    = find_root params0 1%float (7.5 - Float64.two_pi)%float 0x1p-10%float.
Proof.
  assert (Hwrap : wrap_phi 7.5%float = wrap_phi (7.5 - Float64.two_pi)%float)
    by (vm_compute; reflexivity).
  destruct (target_azimuth_through_wrap_phi params0 0 1%float 7.5%float
              (7.5 - Float64.two_pi)%float 0x1p-10%float [] [] 0 Hwrap) as (_ & Hroot & _).
  split; [exact Hwrap|exact Hroot].
Defined.

(** [RootFunctor_call_no_history] on the synthetic Oracle. *)
Lemma RootFunctor_call_no_history_witness :
  let s := {| params := params0; ray_tracing := get_from_cache |} in
  let f := RootFunctor_period 1 1%float 0.5%float in
  RootFunctor_call f (2, 3)%float (snd (RootFunctor_call f (5, 7)%float s))
    = RootFunctor_call f (2, 3)%float s.
Proof.
  intros s f.
  exact (RootFunctor_call_no_history f (2, 3)%float (5, 7)%float s
           synthetic_transform_reads synthetic_transform_writes).
Defined.

(** [sample_run_cells] on the synthetic Oracle, for a task of two cells. *)
Lemma sample_run_cells_witness :
  sample_run params0 1%float 1%float [(0, 2); (2, 2)]%float
    = [sample_cell params0 1%float 1%float 0%float 2%float;
       sample_cell params0 1%float 1%float 2%float 2%float].
Proof.
  exact (sample_run_cells params0 1%float 1%float [(0, 2); (2, 2)]%float
           synthetic_transform_reads synthetic_transform_writes).
Defined.

(** [sweep_matrices] on a 3 by 3 grid. *)
Lemma sweep_matrices_witness :
  ∃ r, sweep_rc_d params0 1%float 1%float [0; 2; 4]%float [2; 3; 0.5]%float
         10 0x1p-10%float = Some r ∧
       has_size (Sweep.theta r) 3 3 ∧ has_size (Sweep.delta_phi r) 3 3 ∧
       coeff (Sweep.delta_theta r) 1 0 = (-1)%float.
Proof.
  sweep_some r Hr.
  destruct (sweep_matrices _ _ _ _ _ _ _ r Hr)
    as ((Htheta & _ & _ & _ & _ & Hdphi) & Hcells).
  split; [exact Htheta|]. split; [exact Hdphi|].
  destruct (Hcells 1 0 0%float 3%float eq_refl eq_refl) as (_ & _ & _ & _ & -> & _).
  vm_compute. reflexivity.
Defined.

(** [sweep_candidate_rows] on the same grid. *)
Lemma sweep_candidate_rows_witness :
  ∃ r, sweep_rc_d params0 1%float 1%float [0; 2; 4]%float [2; 3; 0.5]%float
         10 0x1p-10%float = Some r ∧
       length (Sweep.theta_roots r) = 2 ∧ length (Sweep.phi_roots r) = 2 ∧
       Sweep.theta_roots r !! 0 = Some (2, 3)%float ∧
       Sweep.phi_roots r !! 1 = Some (4, 0.5)%float.
Proof.
  sweep_some r Hr.
  destruct (sweep_candidate_rows _ _ _ _ _ _ _ r Hr) as (Hlt & Hlp & Ht & Hp).
  split; [rewrite Hlt; vm_compute; reflexivity|].
  split; [rewrite Hlp; vm_compute; reflexivity|]. split.
  - destruct (Ht 0 1 1) as (rc & lgd & Hrc & Hlgd & Hrow); [vm_compute; reflexivity|].
    injection Hrc as <-. injection Hlgd as <-. exact Hrow.
  - destruct (Hp 1 2 2) as (rc & lgd & Hrc & Hlgd & Hrow); [vm_compute; reflexivity|].
    injection Hrc as <-. injection Hlgd as <-. exact Hrow.
Defined.

(** [sweep_of_thin_grid] on a grid of one column. *)
Lemma sweep_of_thin_grid_witness :
  (length [2; 3]%float ≤ 1 ∨ length [1%float] ≤ 1) ∧
  sweep_rc_d params0 1%float 1%float [1%float] [2; 3]%float 10 0x1p-10%float
    = Some (sampled params0 1%float (wrap_phi 1%float) [1%float] [2; 3]%float).
Proof.
  assert (Hthin : length [2; 3]%float ≤ 1 ∨ length [1%float] ≤ 1) by (right; cbn; lia).
  split; [exact Hthin|].
  exact (proj1 (proj2 (proj2 (sweep_of_thin_grid params0 1%float 1%float [1%float]
                                 [2; 3]%float 10 0x1p-10%float Hthin)))).
Defined.

(** [phi_only_sweep] on a grid where only [delta_phi] changes sign. *)
Lemma phi_only_sweep_witness :
  ∃ r, sweep_rc_d params0 1%float 1%float [2; 4]%float [2; 0.5]%float 10 0x1p-10%float
         = Some r ∧
       Sweep.phi_roots r = [(4, 0.5)%float] ∧ Sweep.theta_roots r = [] ∧
       Sweep.theta_roots_closest r = [] ∧ Sweep.results r = [].
Proof.
  destruct (phi_only_sweep params0 1%float 1%float [2; 4]%float [2; 0.5]%float
              10 0x1p-10%float) as (r & Hr & Hphi & _ & Htheta & Hclosest & Hresults).
  - vm_compute. reflexivity.
  - vm_compute. intros E. discriminate E.
  - exists r. split; [exact Hr|]. split; [|by repeat split].
    rewrite Hphi. vm_compute. reflexivity.
Defined.

(** [sweep_results_bounded] on the 3 by 3 grid with [cutoff = 1]. *)
Lemma sweep_results_bounded_witness :
  ∃ r, sweep_rc_d params0 1%float 1%float [0; 2; 4]%float [2; 3; 0.5]%float
         1 0x1p-10%float = Some r ∧
       length (Sweep.results r) ≤ 1 ∧
       length (Sweep.theta_roots_closest r) = length (Sweep.theta_roots r).
Proof.
  sweep_some r Hr.
  destruct (sweep_results_bounded _ _ _ _ _ _ _ r Hr) as (Hcut & _ & Hclosest & _).
  split; [exact Hcut|]. apply Hclosest.
  pose proof Hr as Hr'. vm_compute in Hr'. injection Hr' as <-. discriminate.
Defined.

(** [ranking_only_reorders] on the 3 by 3 grid. *)
Lemma ranking_only_reorders_witness :
  ∃ r, sweep_rc_d params0 1%float 1%float [0; 2; 4]%float [2; 3; 0.5]%float
         10 0x1p-10%float = Some r ∧
       Sweep.theta_roots_closest r ≡ₚ [(2, 0.5); (2, 0.5)]%float.
Proof.
  sweep_some r Hr.
  rewrite (ranking_only_reorders _ _ _ _ _ _ _ r Hr).
  - vm_compute. reflexivity.
  - vm_compute. intros E. discriminate E.
Defined.

(** [matched_rows_are_phi_rows] on the 3 by 3 grid. *)
Lemma matched_rows_are_phi_rows_witness :
  (∀ pts p, pts ≠ [] → rtree_nearest pts p ∈ pts) ∧
  ∃ r, sweep_rc_d params0 1%float 1%float [0; 2; 4]%float [2; 3; 0.5]%float
         10 0x1p-10%float = Some r ∧
       (2, 0.5)%float ∈ Sweep.theta_roots_closest r ∧
       (2, 0.5)%float ∈ Sweep.phi_roots r.
Proof.
  split; [exact scan_nearest_elem|].
  sweep_some r Hr.
  assert (Hrow : (2, 0.5)%float ∈ Sweep.theta_roots_closest r).
  { pose proof Hr as Hr'. vm_compute in Hr'. injection Hr' as <-. left. }
  split; [exact Hrow|].
  exact (matched_rows_are_phi_rows _ _ _ _ _ _ _ r _ scan_nearest_elem Hr Hrow).
Defined.

(** [sweep_results_are_refined_roots] on the 3 by 3 grid. *)
Lemma sweep_results_are_refined_roots_witness :
  (∀ pts p, pts ≠ [] → rtree_nearest pts p ∈ pts) ∧
  ∃ r, sweep_rc_d params0 1%float 1%float [0; 2; 4]%float [2; 3; 0.5]%float
         10 0x1p-10%float = Some r ∧
       ∃ rho, rho ∈ Sweep.results r ∧ Result.ray_status rho = NORMAL ∧
              ∃ row col rc lgd,
                [0; 2; 4]%float !! col = Some rc ∧ [2; 3; 0.5]%float !! row = Some lgd ∧
                (rc, lgd) ∈ Sweep.theta_roots_closest r ∧
                find_root_period
                  (at_point (rc, lgd) params0)
                  (MY_FLOOR_convert (coeff (Sweep.phi r) row col ⊘ two_pi))
                  1%float (wrap_phi 1%float) 0x1p-10%float
                = {| success := true; fail_reason := ""; root := Some rho |}.
Proof.
  split; [exact scan_nearest_elem|].
  sweep_some r Hr.
  assert (Hrho : ∃ rho, rho ∈ Sweep.results r ∧ Result.ray_status rho = NORMAL).
  { pose proof Hr as Hr'. vm_compute in Hr'. injection Hr' as <-.
    eexists. split; [left|reflexivity]. }
  destruct Hrho as (rho & Hrho & Hst). exists rho. split; [exact Hrho|].
  split; [exact Hst|].
  pose proof (sweep_results_are_refined_roots _ _ _ _ _ _ _ r rho
                scan_nearest_elem Hr Hrho) as Hroot.
  cbv zeta in Hroot.
  destruct Hroot as (row & col & rc & lgd & _ & Hclosest & Hrc & Hlgd & Hfind & _).
  exists row, col, rc, lgd. split; [exact Hrc|]. split; [exact Hlgd|].
  split; [exact Hclosest|exact Hfind].
Defined.

(** [duplicated_index_sound] on three roots of which the first is within
    the tolerance of the two others. *)
Lemma duplicated_index_sound_witness :
  let tol := 0x1p-10%float in
  let r0 := root_at 0 0.25 in
  let r1 := root_at 0x1p-11 0.25 in
  let r2 := root_at (-0x1p-11) 0.25 in
  1 ∈ duplicated_index_from tol 0 [r0; r1; r2] ∧ is_duplicate tol r0 r1 = true.
Proof.
  intros tol r0 r1 r2.
  assert (Hin : 1 ∈ duplicated_index_from tol 0 [r0; r1; r2]) by (vm_compute; left).
  split; [exact Hin|].
  destruct (duplicated_index_sound tol [r0; r1; r2] 1 Hin)
    as (i & ri & rj & Hlt & Hi & Hj & Hdup).
  assert (i = 0) as -> by lia. injection Hi as <-. injection Hj as <-. exact Hdup.
Defined.

(** [remove_duplicated_keeps_order] on the same roots. *)
Lemma remove_duplicated_keeps_order_witness :
  let tol := 0x1p-10%float in
  let r0 := root_at 0 0.25 in
  let r1 := root_at 0x1p-11 0.25 in
  let r2 := root_at (-0x1p-11) 0.25 in
  remove_duplicated tol [r0; r1; r2] = Some [r0; r2] ∧
  [r0; r2] `sublist_of` [r0; r1; r2] ∧ head [r0; r2] = head [r0; r1; r2].
Proof.
  intros tol r0 r1 r2.
  assert (Hres : remove_duplicated tol [r0; r1; r2] = Some [r0; r2])
    by (vm_compute; reflexivity).
  split; [exact Hres|].
  destruct (remove_duplicated_keeps_order tol _ _ Hres) as (Hsub & _ & Hhead).
  split; [exact Hsub|exact Hhead].
Defined.

(** [remove_duplicated_defined] on the same roots. *)
Lemma remove_duplicated_defined_witness :
  let tol := 0x1p-10%float in
  let r0 := root_at 0 0.25 in
  let r1 := root_at 0x1p-11 0.25 in
  let r2 := root_at (-0x1p-11) 0.25 in
  NoDup (duplicated_index_from tol 0 [r0; r1; r2]) ∧
  ∃ results', remove_duplicated tol [r0; r1; r2] = Some results' ∧ r2 ∈ results'.
Proof.
  intros tol r0 r1 r2.
  assert (Hnodup : NoDup (duplicated_index_from tol 0 [r0; r1; r2]))
    by (vm_compute; apply NoDup_singleton).
  split; [exact Hnodup|].
  destruct (remove_duplicated_defined tol [r0; r1; r2] Hnodup) as (results' & Hres & Hkeep).
  exists results'. split; [exact Hres|].
  apply (Hkeep 2 r2); [reflexivity|].
  vm_compute. intros Hin. apply list_elem_of_singleton in Hin. discriminate Hin.
Defined.

(** [remove_duplicated_distinct] on two roots that are far apart. *)
Lemma remove_duplicated_distinct_witness :
  let tol := 0x1p-10%float in
  let l := [root_at 0 0.25; root_at 1 0.25] in
  (∀ a b ra rb, a < b → l !! a = Some ra → l !! b = Some rb →
     is_duplicate tol ra rb = false) ∧
  remove_duplicated tol l = Some l.
Proof.
  intros tol l.
  assert (Hfar : ∀ a b ra rb, a < b → l !! a = Some ra → l !! b = Some rb →
            is_duplicate tol ra rb = false).
  { intros a b ra rb Hab Ha Hb.
    destruct a as [|[|a]]; destruct b as [|[|b]]; cbn in Ha, Hb; try lia; try discriminate.
    injection Ha as <-. injection Hb as <-. vm_compute. reflexivity. }
  split; [exact Hfar|]. exact (remove_duplicated_distinct tol l Hfar).
Defined.

(** [sweep_rc_d_high_shape] with binary64 promoted to itself. *)
Lemma sweep_rc_d_high_shape_witness :
  ∃ r, sweep_rc_d_high params0 1%float 1%float [0; 2; 4]%float [2; 3; 0.5]%float
         10 0x1p-10%float = Some r ∧
       has_size (Sweep.theta r) 3 3 ∧ length (Sweep.results r) ≤ 10.
Proof.
  sweep_some r Hr.
  destruct (sweep_rc_d_high_shape _ _ _ _ _ _ _ r Hr) as ((Htheta & _) & Hcut & _).
  split; [exact Htheta|exact Hcut].
Defined.
